(** * bmap-cpp: the block-map parser and the sparse copy loop of [bmap.h]

    A shallow embedding of [src/bmap.h] (namespaces [xml] and [bmap]) and of
    the [std::format] of [src/format_gcc12_compat.h], and the properties of
    the descriptor parser, the range decoder, the progress percentage, the
    path checks and the copy loop.

    Conventions.
    - [size_t] is a 64-bit unsigned integer: a [Z] in [0, 2^64) whose
      arithmetic is reduced by [wrap64] wherever the C++ code can wrap.
    - A C++ exception is a [Throw]; a construct whose behaviour the C++
      standard leaves undefined (a null pointer given to [std::string], a
      null dereference, a division by zero, the read of a variable that
      was never written, a [float] out of the range of the integer type it
      is converted to) is an [Undefined] failure.
    - The XML tree comes from tinyxml2, which is not part of the repository:
      the embedding sees it through the three capabilities the code uses
      (named child lookup, text content, attribute lookup).
    - [float] is IEEE 754 single precision, each operation rounded to
      nearest, ties to even. *)

From Stdlib Require Import ZArith List String Ascii Bool Lia.
From Stdlib Require Import Reals Lra Sorted.
From Stdlib Require Import SpecFloat.
From stdpp Require Import base option list gmap.
Import ListNotations.

#[local] Open Scope string_scope.
#[local] Open Scope list_scope.
#[local] Open Scope Z_scope.

(** ** Failures *)

Inductive Failure :=
| Throw (what : string)       (* throw std::runtime_error(what) *)
| Undefined (why : string).   (* undefined behaviour in C++ *)

Inductive result (A : Type) :=
| Ok (a : A)
| Err (f : Failure).
Arguments Ok {A} a.
Arguments Err {A} f.

Definition rbind {A B} (r : result A) (k : A -> result B) : result B :=
  match r with
  | Ok a => k a
  | Err f => Err f
  end.

Notation "'do' x <- r ; k" := (rbind r (fun x => k))
  (at level 10, x name, r at level 100, k at level 200).

(** ** Machine integers *)

Definition SIZE_MAX : Z := 2 ^ 64 - 1.

Definition wrap64 (z : Z) : Z := z mod 2 ^ 64.

(** ** The C++ library pieces the header relies on *)

Module cxx.

(** [std::isspace] in the "C" locale. *)
Definition is_space (c : ascii) : bool :=
  let n := nat_of_ascii c in
  (Nat.eqb n 32 || (Nat.leb 9 n && Nat.leb n 13))%bool.

Definition digit_of (c : ascii) : option Z :=
  let n := Z.of_nat (nat_of_ascii c) in
  if ((48 <=? n) && (n <=? 57))%bool then Some (n - 48) else None.

Fixpoint skip_ws (s : string) : string :=
  match s with
  | String c s' => if is_space c then skip_ws s' else s
  | EmptyString => s
  end.

(** The digits of a numeral are accumulated until the first character that is
    not a digit; [None] when there is no digit at all. *)
Fixpoint read_digits (s : string) (acc : option Z) : option Z :=
  match s with
  | String c s' =>
      match digit_of c with
      | Some d => read_digits s' (Some (10 * default 0 acc + d))
      | None => acc
      end
  | EmptyString => acc
  end.

(** What [strm >> out] does to a [size_t] target and to the stream state. *)
Record Extraction := { stored : option Z; failbit : bool }.

(** [std::istream::operator>>(unsigned long&)] on a fresh [std::stringstream]
    holding [s] (C++11 and later, [num_get] stage 3):
    - the sentry skips white space; at end of input it sets [failbit] and the
      target is not written;
    - an optional sign, then decimal digits; with no digit the target
      becomes 0 and [failbit] is set;
    - a value that does not fit stores the largest [size_t] and sets
      [failbit]; a leading minus negates modulo 2^64 (as [strtoull]). *)
Definition extract_size_t (s : string) : Extraction :=
  match skip_ws s with
  | EmptyString => {| stored := None; failbit := true |}
  | String c rest as body =>
      let neg := Ascii.eqb c "-"%char in
      let digits := if (neg || Ascii.eqb c "+"%char)%bool then rest else body in
      match read_digits digits None with
      | None => {| stored := Some 0; failbit := true |}
      | Some v =>
          if v >? SIZE_MAX then {| stored := Some SIZE_MAX; failbit := true |}
          else {| stored := Some (if neg then wrap64 (- v) else v);
                  failbit := false |}
      end
  end.

(** [s.find(c) != std::string::npos] *)
Fixpoint contains (c : ascii) (s : string) : bool :=
  match s with
  | String c' s' => (Ascii.eqb c' c || contains c s')%bool
  | EmptyString => false
  end.

(** The text before the first [c], and the text after it when there is one. *)
Fixpoint break_at (c : ascii) (s : string) : string * option string :=
  match s with
  | EmptyString => (EmptyString, None)
  | String c' s' =>
      if Ascii.eqb c' c then (EmptyString, Some s')
      else let '(hd, tl) := break_at c s' in (String c' hd, tl)
  end.

(** [s | std::views::split(c)], each piece turned into a [std::string]:
    an empty range has no piece, any other range has one piece more than it
    has separators. *)
Fixpoint split_pieces (fuel : nat) (c : ascii) (s : string) : list string :=
  match fuel with
  | O => []
  | S fuel' =>
      match break_at c s with
      | (hd, None) => [hd]
      | (hd, Some tl) => hd :: split_pieces fuel' c tl
      end
  end.

Definition split (c : ascii) (s : string) : list string :=
  match s with
  | EmptyString => []
  | _ => split_pieces (S (String.length s)) c s
  end.

(** *** IEEE 754 single precision ([float])

    The operations are the ones of the Standard Library's specification of
    binary floating point ([SpecFloat], rounding to nearest, ties to even),
    taken at 24 bits of precision and [emax = 128]. Every operation of a
    [float] expression is rounded to [float], and an integer that [float]
    cannot hold exactly converts to the nearest one. *)

Definition prec : Z := 24.
Definition emax : Z := 128.

(** [(float)n] for an integer [n] *)
Definition float_of_Z (n : Z) : spec_float := binary_normalize prec emax n 0 false.

Definition fmul : spec_float -> spec_float -> spec_float := SFmul prec emax.
Definition fdiv : spec_float -> spec_float -> spec_float := SFdiv prec emax.

(** The integer a finite [float] truncates to (towards zero). *)
Definition trunc (x : spec_float) : option Z :=
  match x with
  | S754_zero _ => Some 0
  | S754_finite s m e =>
      let a := if 0 <=? e then Zpos m * 2 ^ e else Zpos m / 2 ^ (- e) in
      Some (if s then - a else a)
  | S754_infinity _ | S754_nan => None
  end.

(** [uint8_t(x)] for a [float x]: the truncated value when [uint8_t] can hold
    it; the conversion is undefined otherwise. *)
Definition uint8_of_float (x : spec_float) : result Z :=
  match trunc x with
  | Some t =>
      if ((0 <=? t) && (t <=? 255))%bool then Ok t
      else Err (Undefined "float to uint8_t conversion out of range")
  | None => Err (Undefined "float to uint8_t conversion out of range")
  end.

(** [s.ends_with(suffix)] *)
Fixpoint ends_with (s suffix : string) : bool :=
  (String.eqb s suffix
   || match s with
      | EmptyString => false
      | String _ s' => ends_with s' suffix
      end)%bool.

End cxx.

(** ** format_gcc12_compat.h: [std::format] for GCC 12 and below *)

Module compat.

(** The [for] loop of [format]: [rest] is the text from [lastFmt] on, in
    which [std::find] looks for the next opening brace; [result_] is the
    string [result] built so far. A turn consumes the brace pair, so the length of
    the format string is fuel enough. *)
Fixpoint format_loop (fuel : nat) (toAppend : list string) (idx : nat)
    (rest result_ : string) : result string :=
  match cxx.break_at "{" rest with
  | (tail, None) => Ok (result_ ++ tail)%string
  | (before, Some after) =>
      match after with
      | EmptyString => Err (Throw "Invalid format string")
      | String c after' =>
          if negb (Ascii.eqb c "}") then Err (Throw "Invalid format string")
          else
            match fuel with
            | O => Err (Undefined "the loop of format did not end")
            | S fuel' =>
                format_loop fuel' toAppend idx after'
                  (result_ ++ before ++ default EmptyString (toAppend !! idx))%string
            end
      end
  end.

(** [std::format(fmt, arg, args...)]: [idx] starts at 0 and no statement of
    the loop changes it. *)
Definition format (fmt : string) (arg : string) (args : list string) : result string :=
  if negb (cxx.contains "{" fmt) then Ok fmt
  else format_loop (String.length fmt) (arg :: args) 0 fmt EmptyString.

End compat.

(** ** The element tree handed over by tinyxml2 *)

#[warnings="-register-all"]
Inductive XMLElement :=
  Element (name : string) (text : option string)
          (attrs : list (string * string)) (kids : list XMLElement).

Definition Name (e : XMLElement) : string :=
  let 'Element n _ _ _ := e in n.
Definition children (e : XMLElement) : list XMLElement :=
  let 'Element _ _ _ k := e in k.

(** A [const XMLElement*] that is not null: the element and the elements that
    follow it under the same parent. *)
Record ElemRef := { this : XMLElement; siblings : list XMLElement }.

(** A [const XMLElement*]. *)
Definition ElemPtr := option ElemRef.

(** [elem->GetText()]: the text, or a null pointer. *)
Definition GetText (e : ElemRef) : option string :=
  let 'Element _ t _ _ := this e in t.

(** [elem->Attribute(name)]: the value, or a null pointer. *)
Fixpoint lookup_attr (name : string) (l : list (string * string)) : option string :=
  match l with
  | [] => None
  | (k, v) :: l' => if String.eqb k name then Some v else lookup_attr name l'
  end.

Definition Attribute (e : ElemRef) (name : string) : option string :=
  let 'Element _ _ a _ := this e in lookup_attr name a.

Fixpoint first_named (name : string) (l : list XMLElement) : ElemPtr :=
  match l with
  | [] => None
  | x :: l' =>
      if String.eqb (Name x) name then Some {| this := x; siblings := l' |}
      else first_named name l'
  end.

(** [elem->FirstChildElement(name)] *)
Definition FirstChildElement (e : ElemRef) (name : string) : ElemPtr :=
  first_named name (children (this e)).

(** [elem->NextSiblingElement()], called without a name. *)
Definition NextSiblingElement (e : ElemRef) : ElemPtr :=
  match siblings e with
  | [] => None
  | x :: l' => Some {| this := x; siblings := l' |}
  end.

(** [std::string(p)] for a [const char* p]. *)
Definition std_string (p : option string) : result string :=
  match p with
  | Some s => Ok s
  | None => Err (Undefined "std::string constructed from a null pointer")
  end.

(** ** namespace xml *)

Module xml.

Section Value.
(** [typeid(size_t).name()], which the implementation chooses. *)
Variable typeid_name : string.

(** [xml::value<size_t>(elem)] *)
Definition value_size_t (elem : ElemPtr) : result Z :=
  match elem with
  | None => Err (Throw "Element is null")
  | Some e =>
      do text <- std_string (GetText e);
      let x := cxx.extract_size_t text in
      if cxx.failbit x
      then Err (Throw ("Failed to convert element to type " ++ typeid_name)%string)
      else Ok (default 0 (cxx.stored x))
  end.

(** [xml::value<std::string>(elem)] *)
Definition value_string (elem : ElemPtr) : result string :=
  match elem with
  | None => Err (Undefined "null element dereferenced")
  | Some e => std_string (GetText e)
  end.

(** The loop of [valueFromSimpleXPath] over the pieces of the path. *)
Fixpoint descend (elem : ElemPtr) (path : list string) : result ElemPtr :=
  match path with
  | [] => Ok elem
  | subpath :: path' =>
      match elem with
      | None => Err (Undefined "null element dereferenced")
      | Some e =>
          match FirstChildElement e subpath with
          | None =>
              Err (Throw ("Unable to evaluate XPath. No child found with name "
                          ++ subpath)%string)
          | Some e' => descend (Some e') path'
          end
      end
  end.

(** [xml::valueFromSimpleXPath<T>(root, xPath)] for a [value] function. *)
Definition valueFromSimpleXPath {T} (value : ElemPtr -> result T)
    (root : ElemPtr) (xPath : string) : result T :=
  do elem <- descend root (cxx.split "/" xPath);
  value elem.
End Value.

End xml.

(** ** namespace bmap *)

Module bmap.

Record Range := { offset : Z; blockCount : Z; checksum : string }.

(** The lambda [to_sizeT] of [Range::parse]: [size_t out; strm >> out;
    return out;] with no look at the stream state. When the extraction does
    not write [out] (the stream is at its end before any character that is
    not white space), [return out] reads an uninitialised variable, which is
    undefined. *)
Definition to_sizeT (s : string) : result Z :=
  match cxx.stored (cxx.extract_size_t s) with
  | Some out => Ok out
  | None => Err (Undefined "read of an uninitialised size_t")
  end.

(** [Range::parse(elem)] *)
Definition Range_parse (elem : ElemPtr) : result Range :=
  match elem with
  | None => Err (Throw "Cannot initialize Range from NULL!")
  | Some e =>
      do stringVal <- std_string (GetText e);
      do sl <-
        (if negb (cxx.contains "-" stringVal)
         then (do start <- to_sizeT stringVal; Ok (start, 1))
         else
           match cxx.split "-" stringVal with
           | first :: second :: _ =>
               do start <- to_sizeT first;
               do stop <- to_sizeT second;
               Ok (start, wrap64 (wrap64 (stop - start) + 1))
           | _ => Err (Undefined "iterator moved past the end of the split view")
           end);
      let checksum := Attribute e "chksum" in
      do chk <- std_string checksum;
      Ok {| offset := fst sl; blockCount := snd sl; checksum := chk |}
  end.

Record BmapFile := {
  imageSize : Z;
  blockSize : Z;
  blocksCount : Z;
  mappedBlocksCount : Z;
  checksumType : string;
  bmapChecksum : string;
  blockMap : list Range
}.

(** The loop over [rangeElem] and its following siblings. *)
Fixpoint parse_ranges (cur : XMLElement) (rest : list XMLElement) : result (list Range) :=
  do r <- Range_parse (Some {| this := cur; siblings := rest |});
  match rest with
  | [] => Ok [r]
  | next :: rest' =>
      do rs <- parse_ranges next rest';
      Ok (r :: rs)
  end.

Section FromXml.
Variable typeid_name : string.
(** [doc.Parse(bytes.data(), bytes.size())] then [doc.RootElement()]:
    the root element tinyxml2 finds in the bytes, or a null pointer. *)
Variable RootElement : list ascii -> ElemPtr.

Definition from_xml_data (bytes : list ascii) : result BmapFile :=
  match bytes with
  | [] => Err (Throw "bmap file is empty!")
  | _ =>
      let root := RootElement bytes in
      let size_at := xml.valueFromSimpleXPath (xml.value_size_t typeid_name) root in
      let string_at := xml.valueFromSimpleXPath xml.value_string root in
      do imageSize <- size_at "ImageSize";
      do blockSize <- size_at "BlockSize";
      do blocksCount <- size_at "BlocksCount";
      do mappedBlocksCount <- size_at "MappedBlocksCount";
      do chcksmType <- string_at "ChecksumType";
      do chcksum <- string_at "BmapFileChecksum";
      do blockMap <-
        match root with
        | None => Err (Undefined "null element dereferenced")
        | Some r =>
            match FirstChildElement r "BlockMap" with
            | None => Ok []
            | Some blockMapElem =>
                match FirstChildElement blockMapElem "Range" with
                | None => Ok []
                | Some rangeElem =>
                    parse_ranges (this rangeElem) (siblings rangeElem)
                end
            end
        end;
      Ok {| imageSize := imageSize; blockSize := blockSize;
            blocksCount := blocksCount;
            mappedBlocksCount := mappedBlocksCount;
            checksumType := chcksmType; bmapChecksum := chcksum;
            blockMap := blockMap |}
  end.
End FromXml.

(** *** Progress and the copy loop *)

Record Progress := { mappedBlocks : Z; blocksWritten : Z }.

(** [Progress::percent()]:
    [uint8_t(100.0f / (float)mappedBlocks * (float)blocksWritten)] *)
Definition percent (p : Progress) : result Z :=
  cxx.uint8_of_float
    (cxx.fmul (cxx.fdiv (cxx.float_of_Z 100) (cxx.float_of_Z (mappedBlocks p)))
              (cxx.float_of_Z (blocksWritten p))).

(** [constexpr const size_t MAX_BUF_SIZE = 4 * 1024 * 1024 * 2;] *)
Definition MAX_BUF_SIZE : Z := 4 * 1024 * 1024 * 2.

(** The calls the loop makes on its two streams and on the callback. *)
Inductive Call :=
| fseek (offs : Z)            (* std::fseek(blockDevice, offs, SEEK_CUR) *)
| seekg (offs : Z)            (* wicFile.seekg(offs, std::ios_base::cur) *)
| read (byteCount : Z)        (* wicFile.read(buffPtrChar, byteCount) *)
| fwrite (byteCount : Z)      (* std::fwrite(buff.data(), 1, byteCount, blockDevice) *)
| callback (p : Progress)     (* callback(progress) *)
| fsync.                      (* fsync(blockFd) *)

(** The two opened streams, the transfer buffer and the local [progress].
    - [wicData], [wicPos], [wicFail]: the bytes of the image file, the get
      position of [wicFile] and whether its [failbit] is set.
    - [devPos], [devData]: the position of [blockDevice] and the bytes that
      were written to it, by byte offset; an offset that is not in the map
      was never written.
    - [buff]: the bytes a [read] has put at the front of the buffer; the rest
      of the vector still holds the zeros it was created with.
    - [calls]: every call made so far, oldest first. *)
Record State := {
  wicData : list Z;
  wicPos : Z;
  wicFail : bool;
  devPos : Z;
  devData : gmap Z Z;
  buff : list Z;
  progress : Progress;
  calls : list Call
}.

Definition log (c : Call) (st : State) : State :=
  {| wicData := wicData st; wicPos := wicPos st; wicFail := wicFail st;
     devPos := devPos st; devData := devData st; buff := buff st;
     progress := progress st; calls := calls st ++ [c] |}.

(** The value of a [size_t] converted to [long]. *)
Definition to_long (z : Z) : Z := if z <? 2 ^ 63 then z else z - 2 ^ 64.

(** The largest [long], which is also the largest file offset ([off_t]). *)
Definition LONG_MAX : Z := 2 ^ 63 - 1.

(** A file position that a relative seek cannot reach: before the start of
    the file, or past the largest offset. *)
Definition out_of_file (pos : Z) : bool := ((pos <? 0) || (LONG_MAX <? pos))%bool.

(** [std::fseek(blockDevice, offs, SEEK_CUR)]: the position moves by [offs]
    bytes; a move before the start of the file or past the largest offset
    fails and moves nothing. *)
Definition do_fseek (offs : Z) (st : State) : State :=
  let st := log (fseek offs) st in
  let pos := devPos st + to_long offs in
  {| wicData := wicData st; wicPos := wicPos st; wicFail := wicFail st;
     devPos := (if out_of_file pos then devPos st else pos);
     devData := devData st; buff := buff st;
     progress := progress st; calls := calls st |}.

(** [wicFile.seekg(offs, std::ios_base::cur)]: nothing happens on a failed
    stream; a move before the start of the file or past the largest offset
    sets [failbit] and moves nothing. *)
Definition do_seekg (offs : Z) (st : State) : State :=
  let st := log (seekg offs) st in
  let pos := wicPos st + to_long offs in
  {| wicData := wicData st;
     wicPos := (if (wicFail st || out_of_file pos)%bool then wicPos st else pos);
     wicFail := (wicFail st || out_of_file pos)%bool;
     devPos := devPos st; devData := devData st; buff := buff st;
     progress := progress st; calls := calls st |}.

(** [wicFile.read(buffPtrChar, byteCount)]: nothing is read from a failed
    stream; otherwise the bytes that are there, at most [byteCount], go to
    the front of the buffer, and fewer than [byteCount] set [failbit]. *)
Definition do_read (byteCount : Z) (st : State) : State :=
  let st := log (read byteCount) st in
  if wicFail st then st else
  let got := take (Z.to_nat byteCount) (drop (Z.to_nat (wicPos st)) (wicData st)) in
  let n := Z.of_nat (length got) in
  {| wicData := wicData st;
     wicPos := wicPos st + n;
     wicFail := n <? byteCount;
     devPos := devPos st; devData := devData st;
     buff := got ++ drop (length got) (buff st);
     progress := progress st; calls := calls st |}.

(** Byte [i] of the buffer. *)
Definition buff_at (st : State) (i : nat) : Z := default 0 (buff st !! i).

Fixpoint put_bytes (pos : Z) (bytes : list Z) (m : gmap Z Z) : gmap Z Z :=
  match bytes with
  | [] => m
  | b :: bytes' => put_bytes (pos + 1) bytes' (<[pos := b]> m)
  end.

(** [std::fwrite(buff.data(), sizeof(uint8_t), byteCount, blockDevice)]: the
    first [byteCount] bytes of the buffer go to the device at its position.
    The code does not look at the return value; the device is taken to
    accept every write. *)
Definition do_fwrite (byteCount : Z) (st : State) : State :=
  let st := log (fwrite byteCount) st in
  let bytes := map (buff_at st) (seq 0 (Z.to_nat byteCount)) in
  {| wicData := wicData st; wicPos := wicPos st; wicFail := wicFail st;
     devPos := devPos st + byteCount;
     devData := put_bytes (devPos st) bytes (devData st);
     buff := buff st;
     progress := progress st; calls := calls st |}.

(** [progress.blocksWritten += readBlocks;] then
    [if (callback) callback(progress);] *)
Definition advance (has_callback : bool) (readBlocks : Z) (st : State) : State :=
  let p := {| mappedBlocks := mappedBlocks (progress st);
              blocksWritten := wrap64 (blocksWritten (progress st) + readBlocks) |} in
  let st :=
    {| wicData := wicData st; wicPos := wicPos st; wicFail := wicFail st;
       devPos := devPos st; devData := devData st; buff := buff st;
       progress := p; calls := calls st |} in
  if has_callback then log (callback p) st else st.

Inductive Status :=
| Finished
| OutOfFuel               (* the loop was still running when the fuel ran out *)
| Failed (f : Failure).

Record Outcome := { final : State; status : Status }.

Section Copy.
Variable bmapFile : BmapFile.
(** Whether a callback was given ([callback] is not empty). *)
Variable has_callback : bool.

(** [std::min(bmapFile.blockSize * 1024 * 2, MAX_BUF_SIZE)], the size of
    [buff]. *)
Definition buffSize : Z :=
  Z.min (wrap64 (wrap64 (blockSize bmapFile * 1024) * 2)) MAX_BUF_SIZE.

(** [buff.size() / bmapFile.blockSize] *)
Definition bufferMaxBlocks : Z := buffSize / blockSize bmapFile.

(** The inner loop [for (auto blockCount = range.blockCount;
    blockCount > 0;)]; one unit of fuel per iteration. *)
Fixpoint transfer (fuel : nat) (blockCount : Z) (st : State) : Outcome :=
  if blockCount >? 0 then
    match fuel with
    | O => {| final := st; status := OutOfFuel |}
    | S fuel' =>
        let readBlocks :=
          if bufferMaxBlocks <? blockCount then bufferMaxBlocks else blockCount in
        let byteCount := wrap64 (readBlocks * blockSize bmapFile) in
        let st := do_read byteCount st in
        let st := do_fwrite byteCount st in
        let st := advance has_callback readBlocks st in
        transfer fuel' (wrap64 (blockCount - readBlocks)) st
    end
  else {| final := st; status := Finished |}.

(** The body of [for (const auto &range : bmapFile.blockMap)]. The header
    defines [BMAP_COPY_DEBUG_PRINT] itself, so the line after [fsync] is
    always compiled: it calls [progress.percent()], whose conversion to
    [uint8_t] can be undefined; the text it sends to [std::cout] is not
    part of the state. *)
Definition copy_range (fuel : nat) (range : Range) (st : State) : Outcome :=
  let st :=
    if offset range >? blocksWritten (progress st) then
      let seekOffs := offset range - blocksWritten (progress st) in
      do_seekg seekOffs (do_fseek seekOffs st)
    else st in
  let o := transfer fuel (blockCount range) st in
  match status o with
  | Finished =>
      let st := log fsync (final o) in
      match percent (progress st) with
      | Ok _ => {| final := st; status := Finished |}
      | Err f => {| final := st; status := Failed f |}
      end
  | _ => o
  end.

Fixpoint copy_ranges (fuel : nat) (ranges : list Range) (st : State) : Outcome :=
  match ranges with
  | [] => {| final := st; status := Finished |}
  | range :: ranges' =>
      let o := copy_range fuel range st in
      match status o with
      | Finished => copy_ranges fuel ranges' (final o)
      | _ => o
      end
  end.

(** The state in which [copy] reaches its buffer: both files just opened,
    the device at position 0 with nothing written, [progress] at
    [{mappedBlocksCount, 0}]. *)
Definition opened (wic : list Z) : State :=
  {| wicData := wic; wicPos := 0; wicFail := false;
     devPos := 0; devData := ∅; buff := [];
     progress := {| mappedBlocks := mappedBlocksCount bmapFile;
                    blocksWritten := 0 |};
     calls := [] |}.

(** [bmap::copy] from the creation of [buff] to the end of the loop over the
    ranges (the path checks and the opening of the files come before).
    Each inner loop gets [fuel] iterations. *)
Definition copy (fuel : nat) (st : State) : Outcome :=
  if blockSize bmapFile =? 0
  then {| final := st; status := Failed (Undefined "division by zero") |}
  else copy_ranges fuel (blockMap bmapFile) st.
End Copy.

(** *** The functions that go through the file system *)

Section Files.
Variable typeid_name : string.
Variable RootElement : list ascii -> ElemPtr.
(** [std::filesystem::exists(path)] *)
Variable file_exists : string -> bool.
(** The characters a text [std::ifstream] opened on the path delivers (none
    when the file cannot be opened). *)
Variable file_text : string -> list ascii.
(** The bytes a binary [std::ifstream] opened on the path delivers, or
    nothing when the stream cannot be opened. *)
Variable file_bytes : string -> option (list Z).
(** Whether [std::fopen(path, "w+b")] returns a stream. *)
Variable fopen_ok : string -> bool.
(** [std::filesystem::path(p).parent_path()] and [operator/]. *)
Variable parent_path : string -> string.
Variable path_append : string -> string -> string.

(** [BmapFile::from_xml(xmlPath)] *)
Definition from_xml (xmlPath : string) : result BmapFile :=
  if negb (file_exists xmlPath)
  then Err (Throw ("File not found! Path " ++ xmlPath ++ " does not exist.")%string)
  else from_xml_data typeid_name RootElement (file_text xmlPath).

(** The checks [bmap::copy] makes on its two paths before it opens a file. *)
Definition check_paths (wicPath targetDisk : string) : result unit :=
  if (negb (cxx.ends_with wicPath ".wic") && negb (cxx.ends_with wicPath "wic.gz"))%bool
  then Err (Throw ("Expected '.wic' or '.wic.gz' got '" ++ wicPath ++ "'")%string)
  else if cxx.ends_with wicPath "wic.gz"
  then Err (Throw "Compressed wic files are currently not supported :(")
  else if negb (file_exists wicPath) then Err (Throw "wic file not found")
  else if negb (file_exists targetDisk) then Err (Throw "target disk not found")
  else Ok tt.

(** [bmap::copy(wicPath, targetDisk, callback)] as a whole: the checks, the
    descriptor read from the file next to the image, the two streams, then
    the loop [copy] above. *)
Definition copy_paths (wicPath targetDisk : string) (has_callback : bool)
    (fuel : nat) : result Outcome :=
  do _ <- check_paths wicPath targetDisk;
  let bmapFilePath := path_append (parent_path wicPath) (wicPath ++ ".bmap")%string in
  do bmapFile <- from_xml bmapFilePath;
  if negb (fopen_ok targetDisk)
  then Err (Throw ("Unable to open block device " ++ targetDisk
                   ++ " for writing. Maybe missing permissions?")%string)
  else
    let st := opened bmapFile (default [] (file_bytes wicPath)) in
    let st :=
      {| wicData := wicData st; wicPos := wicPos st;
         wicFail := match file_bytes wicPath with Some _ => false | None => true end;
         devPos := devPos st; devData := devData st; buff := buff st;
         progress := progress st; calls := calls st |} in
    Ok (copy bmapFile has_callback fuel st).
End Files.

End bmap.

Import bmap.

(** ** Vocabulary of the statements *)

(** The character of a decimal digit. *)
Definition digit_char (d : Z) : ascii := ascii_of_nat (Z.to_nat (48 + d)).

(** A decimal numeral, given by its digits, most significant first. *)
Fixpoint numeral (ds : list Z) : string :=
  match ds with
  | [] => EmptyString
  | d :: ds' => String (digit_char d) (numeral ds')
  end.

(** The number a sequence of decimal digits denotes. *)
Definition value_of (ds : list Z) : Z := fold_left (fun acc d => 10 * acc + d) ds 0.

Definition digits (ds : list Z) : Prop := ds <> [] /\ Forall (fun d => 0 <= d <= 9) ds.

(** The element [e] with its text replaced. *)
Definition with_text (e : ElemRef) (text : option string) : ElemRef :=
  let 'Element n _ a k := this e in
  {| this := Element n text a k; siblings := siblings e |}.

(** A [Range] element with the given text and [chksum] attribute (when there
    is one), and no sibling after it. *)
Definition range_elem (text : option string) (chk : option string) : ElemRef :=
  {| this := Element "Range" text
               (match chk with Some c => [("chksum", c)] | None => [] end) [];
     siblings := [] |}.

(** A descriptor document: the six scalar elements with the given texts, then
    the elements of [extra]. *)
Definition leaf (name text : string) : XMLElement := Element name (Some text) [] [].

Definition document (image block blocks mapped : string) (extra : list XMLElement) : ElemPtr :=
  Some {| this := Element "bmap" None [("version", "2.0")]
                    ([leaf "ImageSize" image; leaf "BlockSize" block;
                      leaf "BlocksCount" blocks; leaf "MappedBlocksCount" mapped;
                      leaf "ChecksumType" "sha256"; leaf "BmapFileChecksum" "0"]
                     ++ extra);
          siblings := [] |}.

(** The sizes of the chunks into which [n] blocks are cut when a chunk holds
    at most [bmax] blocks: full chunks, then what is left. *)
Definition chunk_sizes (bmax n : Z) : list Z :=
  repeat bmax (Z.to_nat (n / bmax))
  ++ (if n mod bmax =? 0 then [] else [n mod bmax]).

(** The calls made for chunks of the given sizes, when [written] blocks were
    written before the first of them. *)
Fixpoint chunk_calls (has_callback : bool) (bs mapped written : Z)
    (sizes : list Z) : list Call :=
  match sizes with
  | [] => []
  | c :: sizes' =>
      let p := {| mappedBlocks := mapped; blocksWritten := wrap64 (written + c) |} in
      [read (c * bs); fwrite (c * bs)]
      ++ (if has_callback then [callback p] else [])
      ++ chunk_calls has_callback bs mapped (wrap64 (written + c)) sizes'
  end.

Definition sumZ (l : list Z) : Z := fold_right Z.add 0 l.


(** A descriptor with the given block size and ranges (offset, count). *)
Definition descriptor (bs mapped : Z) (ranges : list (Z * Z)) : BmapFile :=
  {| imageSize := 0; blockSize := bs; blocksCount := 0;
     mappedBlocksCount := mapped; checksumType := "sha256"; bmapChecksum := "0";
     blockMap := map (fun r => {| offset := fst r; blockCount := snd r;
                                  checksum := "" |}) ranges |}.

(** An image of [nblocks] blocks of [bs] bytes whose block [b] is filled
    with the byte [b]. *)
Definition image (bs : Z) (nblocks : nat) : list Z :=
  flat_map (fun b => repeat (Z.of_nat b) (Z.to_nat bs)) (seq 0 nblocks).

(** *** Single precision, as real numbers *)

(** Round to nearest, ties to even, of the fraction N / D. *)
Definition rne_div (N D : Z) : Z :=
  let q := N / D in
  let r2 := 2 * (N mod D) in
  if r2 <? D then q
  else if D <? r2 then q + 1
  else if Z.even q then q else q + 1.

(** The record [m, r, s] locates the fraction [N / D]: [m] is its integer
    part, [r] says that it is at least [m + 1/2], [s] that it is neither [m]
    nor [m + 1/2]. *)
Definition locates (N D : Z) (mrs : shr_record) : Prop :=
  0 < D /\ 0 <= shr_m mrs
  /\ shr_m mrs * D <= N < (shr_m mrs + 1) * D
  /\ shr_r mrs = ((2 * shr_m mrs + 1) * D <=? 2 * N)
  /\ shr_s mrs = (negb (N =? shr_m mrs * D)
                  && negb (2 * N =? (2 * shr_m mrs + 1) * D))%bool.

(** [2^e] as a real number, for any integer [e]. *)
Definition pow2 (e : Z) : R := powerRZ 2 e.

(** The real number a finite float stands for. *)
Definition F2R (x : spec_float) : R :=
  match x with
  | S754_finite s m e => ((if s then -1 else 1) * IZR (Zpos m) * pow2 e)%R
  | _ => 0%R
  end.

(** [x] is the float next to the positive real [X]: its mantissa is the
    fraction [N / D] rounded to nearest even, where [X = N / D * 2^E] lies in
    the binade of exponent [E]. *)
Definition rounds (E : Z) (X : R) (x : spec_float) : Prop :=
  exists M N D : Z,
    x = (if M <? 2 ^ 24 then S754_finite false (Z.to_pos M) E
         else S754_finite false (Z.to_pos (2 ^ 23)) (E + 1))
    /\ 2 ^ 23 <= M <= 2 ^ 24 /\ 0 < D /\ M = rne_div N D
    /\ X = (IZR N / IZR D * pow2 E)%R
    /\ (pow2 (E + 23) <= X < pow2 (E + 24))%R.

(** A positive normal number. *)
Definition normal (x : spec_float) (m : positive) (e : Z) : Prop :=
  x = S754_finite false m e /\ 2 ^ 23 <= Zpos m < 2 ^ 24.

(** [100.0f / (float)mappedBlocks] and the product [percent] truncates. *)
Definition quotient (mb : Z) : spec_float :=
  cxx.fdiv (cxx.float_of_Z 100) (cxx.float_of_Z mb).
Definition product (mb bw : Z) : spec_float :=
  cxx.fmul (quotient mb) (cxx.float_of_Z bw).



(** *** Vocabulary for the texts, the paths and the loop as a whole *)

(** The pieces, with [sep] between one and the next. *)
Fixpoint join (sep : string) (pieces : list string) : string :=
  match pieces with
  | [] => EmptyString
  | p :: rest =>
      match rest with
      | [] => p
      | _ :: _ => (p ++ sep ++ join sep rest)%string
      end
  end.

(** The text with each "{}" replaced by [x], read from left to right; any
    other opening brace makes the text invalid. *)
Fixpoint fill (x : string) (s : string) : result string :=
  match s with
  | EmptyString => Ok EmptyString
  | String c s' =>
      if Ascii.eqb c "{" then
        match s' with
        | EmptyString => Err (Throw "Invalid format string")
        | String c' s'' =>
            if Ascii.eqb c' "}"
            then do r <- fill x s''; Ok (x ++ r)%string
            else Err (Throw "Invalid format string")
        end
      else do r <- fill x s'; Ok (String c r)
  end.

(** The first character of the text is not [c] (or there is none). *)
Definition not_first (c : ascii) (s : string) : Prop :=
  match s with
  | EmptyString => True
  | String c' _ => c' <> c
  end.

(** The text is made of white space only. *)
Fixpoint spaces (s : string) : bool :=
  match s with
  | EmptyString => true
  | String c s' => (cxx.is_space c && spaces s')%bool
  end.

(** The text holds a decimal digit somewhere. *)
Fixpoint has_digit (s : string) : bool :=
  match s with
  | EmptyString => false
  | String c s' => (bool_decide (cxx.digit_of c <> None) || has_digit s')%bool
  end.

(** The texts [Range::parse] gives to [to_sizeT]: the whole text when it
    has no hyphen; else what is before the first hyphen, and what is
    between that hyphen and the next one (or the end). *)
Definition operands (text : string) : list string :=
  match cxx.break_at "-" text with
  | (_, None) => [text]
  | (first, Some tl) => [first; fst (cxx.break_at "-" tl)]
  end.

(** The text does not start with a decimal digit. *)
Definition no_digit_first (s : string) : Prop :=
  match s with
  | EmptyString => True
  | String c _ => cxx.digit_of c = None
  end.

(** The first child of [root] with the given name has a text from which the
    extraction reads [v] and leaves the stream good. *)
Definition size_child (root : ElemRef) (name : string) (v : Z) : Prop :=
  exists c text,
    FirstChildElement root name = Some c /\ GetText c = Some text
    /\ cxx.extract_size_t text = {| cxx.stored := Some v; cxx.failbit := false |}.

(** The first child of [root] with the given name has the text [s]. *)
Definition text_child (root : ElemRef) (name : string) (s : string) : Prop :=
  exists c, FirstChildElement root name = Some c /\ GetText c = Some s.

(** The element on its own, as [Range::parse] is given it. *)
Definition alone (x : XMLElement) : ElemPtr := Some {| this := x; siblings := [] |}.

(** One turn of the inner loop of [copy], for a chunk of [readBlocks]
    blocks: the read, the write, the count and the report. *)
Definition one_chunk (bmapFile : BmapFile) (has_callback : bool) (readBlocks : Z)
    (st : State) : State :=
  let byteCount := wrap64 (readBlocks * blockSize bmapFile) in
  advance has_callback readBlocks (do_fwrite byteCount (do_read byteCount st)).

(** The two seeks [copy] makes before a range. *)
Definition seek_both (seekOffs : Z) (st : State) : State :=
  do_seekg seekOffs (do_fseek seekOffs st).


(** The image stream has failed and no byte other than zero is in the
    buffer or on the device. *)
Definition all_zero (st : State) : Prop :=
  wicFail st = true /\ (forall i, buff_at st i = 0)
  /\ forall k b, devData st !! k = Some b -> b = 0.

(** The calls of the whole loop over [ranges] when every inner loop runs to
    its end, [written] blocks having been written before. *)
Fixpoint range_calls (has_callback : bool) (bmapFile : BmapFile) (written : Z)
    (ranges : list Range) : list Call :=
  match ranges with
  | [] => []
  | r :: ranges' =>
      (if offset r >? written
       then [fseek (offset r - written); seekg (offset r - written)]
       else [])
      ++ chunk_calls has_callback (blockSize bmapFile) (mappedBlocksCount bmapFile)
           written (chunk_sizes (bufferMaxBlocks bmapFile) (blockCount r))
      ++ [fsync]
      ++ range_calls has_callback bmapFile (written + blockCount r) ranges'
  end.



Definition sample_root : ElemPtr :=
  document "8" "2" "4" "3"
    [Element "BlockMap" None []
       [Element "Range" (Some "0") [("chksum", "c0")] [];
        Element "Range" (Some "2-3") [("chksum", "c1")] []]].

Definition sample_descriptor : BmapFile :=
  {| imageSize := 8; blockSize := 2; blocksCount := 4; mappedBlocksCount := 3;
     checksumType := "sha256"; bmapChecksum := "0";
     blockMap := [{| offset := 0; blockCount := 1; checksum := "c0" |};
                  {| offset := 2; blockCount := 2; checksum := "c1" |}] |}.



(** The same descriptor with a [Note] before the first [Range] and, for the
    second range, an element that is not named [Range]. *)
Definition sample_mixed_root : ElemPtr :=
  document "8" "2" "4" "3"
    [Element "BlockMap" None []
       [Element "Note" (Some "x") [] [];
        Element "Range" (Some "0") [("chksum", "c0")] [];
        Element "Extent" (Some "2-3") [("chksum", "c1")] []]].


(** The names of the six scalar elements of a descriptor. *)
Definition scalar_names : list string :=
  ["ImageSize"; "BlockSize"; "BlocksCount"; "MappedBlocksCount";
   "ChecksumType"; "BmapFileChecksum"].

(** ** Lemmas on the C++ library model *)

Section Numerals.

Lemma digit_cases d : 0 <= d <= 9 ->
  d = 0 \/ d = 1 \/ d = 2 \/ d = 3 \/ d = 4 \/ d = 5 \/ d = 6 \/ d = 7 \/ d = 8 \/ d = 9.
Proof. lia. Qed.

Ltac each_digit H :=
  apply digit_cases in H;
  repeat (destruct H as [H | H]; [subst; reflexivity |]); subst; reflexivity.

Lemma digit_of_digit_char d : 0 <= d <= 9 -> cxx.digit_of (digit_char d) = Some d.
Proof. intros H. each_digit H. Qed.

Lemma digit_char_not_space d : 0 <= d <= 9 -> cxx.is_space (digit_char d) = false.
Proof. intros H. each_digit H. Qed.

Lemma digit_char_not_minus d : 0 <= d <= 9 -> Ascii.eqb (digit_char d) "-" = false.
Proof. intros H. each_digit H. Qed.

Lemma digit_char_not_plus d : 0 <= d <= 9 -> Ascii.eqb (digit_char d) "+" = false.
Proof. intros H. each_digit H. Qed.

Lemma read_digits_numeral ds : Forall (fun d => 0 <= d <= 9) ds ->
  forall acc, cxx.read_digits (numeral ds) (Some acc)
              = Some (fold_left (fun acc d => 10 * acc + d) ds acc).
Proof.
  induction 1 as [| d ds Hd _ IH]; intros acc; simpl; [reflexivity |].
  rewrite (digit_of_digit_char d Hd). simpl. apply IH.
Qed.

Lemma read_digits_numeral_start ds : digits ds ->
  cxx.read_digits (numeral ds) None = Some (value_of ds).
Proof.
  intros [Hne Hall]. destruct Hall as [| d ds Hd Hall]; [congruence |].
  simpl. rewrite (digit_of_digit_char d Hd). simpl.
  rewrite (read_digits_numeral ds Hall). reflexivity.
Qed.

Lemma fold_digits_nonneg ds : Forall (fun d => 0 <= d <= 9) ds ->
  forall z, 0 <= z -> 0 <= fold_left (fun acc d => 10 * acc + d) ds z.
Proof.
  induction 1 as [| d ds Hd _ IH]; intros z Hz; simpl; [lia |]. apply IH. lia.
Qed.

Lemma value_of_nonneg ds : Forall (fun d => 0 <= d <= 9) ds -> 0 <= value_of ds.
Proof. intros H. apply fold_digits_nonneg; [exact H | lia]. Qed.

(** A numeral that fits is extracted as the number it denotes, and leaves
    the stream good. *)
Lemma extract_numeral ds : digits ds -> value_of ds <= SIZE_MAX ->
  cxx.extract_size_t (numeral ds)
  = {| cxx.stored := Some (value_of ds); cxx.failbit := false |}.
Proof.
  intros Hds Hfit. pose proof (read_digits_numeral_start ds Hds) as Hread.
  destruct Hds as [Hne Hall]. destruct Hall as [| d ds Hd Hall]; [congruence |].
  unfold cxx.extract_size_t. cbn [numeral cxx.skip_ws].
  rewrite (digit_char_not_space d Hd), (digit_char_not_minus d Hd),
    (digit_char_not_plus d Hd).
  cbn [orb]. cbn [numeral] in Hread. rewrite Hread.
  destruct (Z.gtb_spec (value_of (d :: ds)) SIZE_MAX); [lia | reflexivity].
Qed.

Lemma to_sizeT_numeral ds : digits ds -> value_of ds <= SIZE_MAX ->
  to_sizeT (numeral ds) = Ok (value_of ds).
Proof. intros Hds Hfit. unfold to_sizeT. rewrite extract_numeral; auto. Qed.

Lemma contains_numeral ds : Forall (fun d => 0 <= d <= 9) ds ->
  cxx.contains "-" (numeral ds) = false.
Proof.
  induction 1 as [| d ds Hd _ IH]; simpl; [reflexivity |].
  rewrite (digit_char_not_minus d Hd), IH. reflexivity.
Qed.

Lemma contains_app c s t :
  cxx.contains c (s ++ t) = (cxx.contains c s || cxx.contains c t)%bool.
Proof. induction s as [| a s IH]; simpl; [reflexivity |]. rewrite IH. apply orb_assoc. Qed.

Lemma break_at_numeral ds : Forall (fun d => 0 <= d <= 9) ds ->
  cxx.break_at "-" (numeral ds) = (numeral ds, None).
Proof.
  induction 1 as [| d ds Hd _ IH]; simpl; [reflexivity |].
  rewrite (digit_char_not_minus d Hd), IH. reflexivity.
Qed.

Lemma break_at_numeral_minus ds t : Forall (fun d => 0 <= d <= 9) ds ->
  cxx.break_at "-" (numeral ds ++ String "-" t) = (numeral ds, Some t).
Proof.
  induction 1 as [| d ds Hd _ IH]; simpl; [reflexivity |].
  rewrite (digit_char_not_minus d Hd), IH. reflexivity.
Qed.

Lemma split_pair a b : digits a -> digits b ->
  cxx.split "-" (numeral a ++ String "-" (numeral b)) = [numeral a; numeral b].
Proof.
  intros [Hane Ha] [Hbne Hb]. unfold cxx.split.
  destruct (numeral a ++ String "-" (numeral b))%string as [| c s] eqn:E.
  { destruct a; simpl in E; discriminate. }
  rewrite <- E at 2. cbn [cxx.split_pieces String.length].
  rewrite (break_at_numeral_minus a _ Ha).
  cbn [cxx.split_pieces]. rewrite (break_at_numeral b Hb). reflexivity.
Qed.

End Numerals.

(** What [Range::parse] returns for an element with a text and a [chksum]
    attribute, in terms of the decoding of the text alone. *)
Lemma Range_parse_with_text e text chk :
  Attribute e "chksum" = Some chk ->
  Range_parse (Some (with_text e (Some text)))
  = if negb (cxx.contains "-" text)
    then (do start <- to_sizeT text;
          Ok {| offset := start; blockCount := 1; checksum := chk |})
    else match cxx.split "-" text with
         | first :: second :: _ =>
             do start <- to_sizeT first;
             do stop <- to_sizeT second;
             Ok {| offset := start;
                   blockCount := wrap64 (wrap64 (stop - start) + 1);
                   checksum := chk |}
         | _ => Err (Undefined "iterator moved past the end of the split view")
         end.
Proof.
  intros Hchk. unfold Range_parse, with_text, Attribute, GetText in *.
  destruct e as [[n t a k] sibs]. cbn in *. rewrite Hchk.
  destruct (negb (cxx.contains "-" text)); cbn.
  - destruct (to_sizeT text); reflexivity.
  - destruct (cxx.split "-" text) as [| first [| second rest]]; try reflexivity.
    destruct (to_sizeT first); [| reflexivity].
    destruct (to_sizeT second); reflexivity.
Qed.

(** The same without the attribute: the null pointer reaches the
    constructor of [std::string] once the numbers have been read. *)
Lemma Range_parse_without_chksum e text :
  Attribute e "chksum" = None ->
  Range_parse (Some (with_text e (Some text)))
  = if negb (cxx.contains "-" text)
    then (do start <- to_sizeT text;
          Err (Undefined "std::string constructed from a null pointer"))
    else match cxx.split "-" text with
         | first :: second :: _ =>
             do start <- to_sizeT first;
             do stop <- to_sizeT second;
             Err (Undefined "std::string constructed from a null pointer")
         | _ => Err (Undefined "iterator moved past the end of the split view")
         end.
Proof.
  intros Hchk. unfold Range_parse, with_text, Attribute, GetText in *.
  destruct e as [[n t a k] sibs]. cbn in *. rewrite Hchk.
  destruct (negb (cxx.contains "-" text)); cbn.
  - destruct (to_sizeT text); reflexivity.
  - destruct (cxx.split "-" text) as [| first [| second rest]]; try reflexivity.
    destruct (to_sizeT first); [| reflexivity].
    destruct (to_sizeT second); reflexivity.
Qed.

(** ** The range decoder *)

(** C2. [Range::parse] decodes a text with no hyphen as a one-block range at
    that block, and a pair [start-end] with [end >= start] as
    [offset = start], [blockCount = end - start + 1] (numerals that denote
    [size_t] values, a count that [size_t] can hold, on an element that has
    its [chksum] attribute); "100" gives {100, 1}, "100-199" gives
    {100, 100} and "5-5" gives {5, 1}. *)
Theorem Range_parse_decodes_text (e : ElemRef) (chk : string)
    (a b : list Z)
    (Hchk : Attribute e "chksum" = Some chk)
    (Ha : digits a) (Hb : digits b)
    (Hab : value_of a <= value_of b) (Hfit : value_of b <= SIZE_MAX)
    (Hcount : value_of b - value_of a + 1 <= SIZE_MAX) :
  Range_parse (Some (with_text e (Some (numeral a))))
    = Ok {| offset := value_of a; blockCount := 1; checksum := chk |}
  /\ Range_parse (Some (with_text e (Some (numeral a ++ "-" ++ numeral b)%string)))
    = Ok {| offset := value_of a; blockCount := value_of b - value_of a + 1;
            checksum := chk |}
  /\ Range_parse (Some (with_text e (Some "100")))
    = Ok {| offset := 100; blockCount := 1; checksum := chk |}
  /\ Range_parse (Some (with_text e (Some "100-199")))
    = Ok {| offset := 100; blockCount := 100; checksum := chk |}
  /\ Range_parse (Some (with_text e (Some "5-5")))
    = Ok {| offset := 5; blockCount := 1; checksum := chk |}.
Proof.
  pose proof (value_of_nonneg a (proj2 Ha)) as Hva.
  repeat split; rewrite (Range_parse_with_text _ _ _ Hchk); try reflexivity.
  - rewrite (contains_numeral a) by apply Ha. cbn [negb].
    rewrite to_sizeT_numeral by (auto; lia). reflexivity.
  - rewrite contains_app. cbn [cxx.contains Ascii.eqb Bool.eqb].
    rewrite orb_true_r. cbn [negb].
    change (numeral a ++ "-" ++ numeral b)%string
      with (numeral a ++ String "-" (numeral b))%string.
    rewrite (split_pair a b Ha Hb).
    rewrite !to_sizeT_numeral by (auto; lia). cbn [rbind].
    unfold wrap64. rewrite Zplus_mod_idemp_l.
    rewrite Z.mod_small by (unfold SIZE_MAX in *; lia).
    reflexivity.
Qed.

Lemma Range_parse_decodes_text_witness :
  Range_parse (Some (with_text (range_elem None (Some "9eaf")) (Some "100-199")))
  = Ok {| offset := 100; blockCount := 100; checksum := "9eaf" |}.
Proof.
  refine (proj1 (proj2 (Range_parse_decodes_text
            (range_elem None (Some "9eaf")) "9eaf" [1; 0; 0] [1; 9; 9] _ _ _ _ _ _))).
  - reflexivity.
  - split; [discriminate | repeat constructor; lia].
  - split; [discriminate | repeat constructor; lia].
  - vm_compute. discriminate.
  - vm_compute. discriminate.
  - vm_compute. discriminate.
Defined.

(** C9. On a pair "a-b" of numerals with [b < a], [Range::parse] does not
    fail: it returns [offset = a] and [blockCount = (b - a + 1) mod 2^64]. *)
Theorem Range_parse_inverted_pair_wraps (e : ElemRef) (chk : string)
    (a b : list Z)
    (Hchk : Attribute e "chksum" = Some chk)
    (Ha : digits a) (Hb : digits b)
    (Hba : value_of b < value_of a) (Hfit : value_of a <= SIZE_MAX) :
  Range_parse (Some (with_text e (Some (numeral a ++ "-" ++ numeral b)%string)))
  = Ok {| offset := value_of a;
          blockCount := (value_of b - value_of a + 1) mod 2 ^ 64;
          checksum := chk |}.
Proof.
  rewrite (Range_parse_with_text _ _ _ Hchk).
  rewrite contains_app. cbn [cxx.contains Ascii.eqb Bool.eqb].
  rewrite orb_true_r. cbn [negb].
  change (numeral a ++ "-" ++ numeral b)%string
    with (numeral a ++ String "-" (numeral b))%string.
  rewrite (split_pair a b Ha Hb).
  rewrite !to_sizeT_numeral by (auto; lia). cbn [rbind].
  unfold wrap64. rewrite Zplus_mod_idemp_l. reflexivity.
Qed.

Lemma Range_parse_inverted_pair_wraps_witness :
  Range_parse (Some (with_text (range_elem None (Some "9eaf")) (Some "9-5")))
  = Ok {| offset := 9; blockCount := 2 ^ 64 - 3; checksum := "9eaf" |}.
Proof.
  refine (Range_parse_inverted_pair_wraps
            (range_elem None (Some "9eaf")) "9eaf" [9] [5] _ _ _ _ _).
  - reflexivity.
  - split; [discriminate | repeat constructor; lia].
  - split; [discriminate | repeat constructor; lia].
  - vm_compute. reflexivity.
  - vm_compute. discriminate.
Defined.

(** C3, evaluated on the code. A [Range] whose text is not a number is
    decoded without any failure: "abc" and "abc-def" give {0, 1}, and a
    descriptor whose only range is "abc" is built with that range in it.
    When an operand of the hyphen is missing ("12-") the lambda returns its
    uninitialised [out]: no statement of the header throws, and what
    happens is undefined. *)
Theorem Range_parse_accepts_malformed_text :
  forall (tn : string),
    Range_parse (Some (range_elem (Some "abc") (Some "x")))
      = Ok {| offset := 0; blockCount := 1; checksum := "x" |}
    /\ Range_parse (Some (range_elem (Some "abc-def") (Some "x")))
      = Ok {| offset := 0; blockCount := 1; checksum := "x" |}
    /\ Range_parse (Some (range_elem (Some "12-") (Some "x")))
      = Err (Undefined "read of an uninitialised size_t")
    /\ from_xml_data tn
         (fun _ => document "1048576" "4096" "256" "10"
                     [Element "BlockMap" None []
                        [Element "Range" (Some "abc") [("chksum", "x")] []]])
         ["<"%char]
      = Ok {| imageSize := 1048576; blockSize := 4096; blocksCount := 256;
              mappedBlocksCount := 10; checksumType := "sha256";
              bmapChecksum := "0";
              blockMap := [{| offset := 0; blockCount := 1; checksum := "x" |}] |}.
Proof. intros tn. repeat split; reflexivity. Qed.

(** C4, evaluated on the code. [Range::parse] tests [elem] for null but not
    the pointer that [Attribute("chksum")] returns. On an element without
    the attribute, for every text that is a numeral or a pair of numerals
    ("100", "100-199"), the numbers are read and the null pointer then
    reaches the constructor of [std::string], which is undefined: no
    [Range] is returned, and none with an empty checksum. An empty checksum
    comes only from an attribute that is there and empty. *)
Theorem Range_parse_missing_chksum_undefined (e : ElemRef) (a b : list Z)
    (Hnone : Attribute e "chksum" = None)
    (Ha : digits a) (Hb : digits b)
    (Hafit : value_of a <= SIZE_MAX) (Hbfit : value_of b <= SIZE_MAX) :
  Range_parse (Some (with_text e (Some (numeral a))))
    = Err (Undefined "std::string constructed from a null pointer")
  /\ Range_parse (Some (with_text e (Some (numeral a ++ "-" ++ numeral b)%string)))
    = Err (Undefined "std::string constructed from a null pointer")
  /\ Range_parse (Some (range_elem (Some "100") None))
    = Err (Undefined "std::string constructed from a null pointer")
  /\ Range_parse (Some (range_elem (Some "100-199") None))
    = Err (Undefined "std::string constructed from a null pointer")
  /\ Range_parse (Some (range_elem (Some "100") (Some "")))
    = Ok {| offset := 100; blockCount := 1; checksum := "" |}.
Proof.
  repeat split; try reflexivity; rewrite (Range_parse_without_chksum _ _ Hnone).
  - rewrite (contains_numeral a) by apply Ha. cbn [negb].
    rewrite to_sizeT_numeral by auto. reflexivity.
  - rewrite contains_app. cbn [cxx.contains Ascii.eqb Bool.eqb].
    rewrite orb_true_r. cbn [negb].
    change (numeral a ++ "-" ++ numeral b)%string
      with (numeral a ++ String "-" (numeral b))%string.
    rewrite (split_pair a b Ha Hb).
    rewrite !to_sizeT_numeral by auto. reflexivity.
Qed.

Lemma Range_parse_missing_chksum_undefined_witness :
  Range_parse (Some (with_text (range_elem None None) (Some "100-199")))
  = Err (Undefined "std::string constructed from a null pointer").
Proof.
  refine (proj1 (proj2 (Range_parse_missing_chksum_undefined (range_elem None None)
                          [1; 0; 0] [1; 9; 9] _ _ _ _ _))).
  - reflexivity.
  - split; [discriminate | repeat constructor; lia].
  - split; [discriminate | repeat constructor; lia].
  - vm_compute. discriminate.
  - vm_compute. discriminate.
Defined.

(** ** The descriptor parser *)

(** C10. On an empty byte sequence [from_xml_data] throws "bmap file is
    empty!", whatever the XML parser would have made of the bytes. *)
Theorem from_xml_data_empty :
  forall (tn : string) (RootElement : list ascii -> ElemPtr),
    from_xml_data tn RootElement [] = Err (Throw "bmap file is empty!").
Proof. reflexivity. Qed.

(** C7. When the six scalar elements parse and the root has no [BlockMap]
    child, [from_xml_data] returns the descriptor with an empty range list;
    a copy driven by that descriptor calls neither [read] nor [fwrite] (it
    makes no call at all and leaves both streams where they were). *)
Theorem from_xml_data_without_BlockMap
    (tn : string) (RootElement : list ascii -> ElemPtr)
    (bytes : list ascii) (root : ElemRef)
    (image block blocks mapped : Z) (ctype csum : string)
    (Hbytes : bytes <> [])
    (Hroot : RootElement bytes = Some root)
    (Himage : xml.valueFromSimpleXPath (xml.value_size_t tn) (Some root) "ImageSize"
              = Ok image)
    (Hblock : xml.valueFromSimpleXPath (xml.value_size_t tn) (Some root) "BlockSize"
              = Ok block)
    (Hblocks : xml.valueFromSimpleXPath (xml.value_size_t tn) (Some root) "BlocksCount"
               = Ok blocks)
    (Hmapped : xml.valueFromSimpleXPath (xml.value_size_t tn) (Some root)
                 "MappedBlocksCount" = Ok mapped)
    (Hctype : xml.valueFromSimpleXPath xml.value_string (Some root) "ChecksumType"
              = Ok ctype)
    (Hcsum : xml.valueFromSimpleXPath xml.value_string (Some root) "BmapFileChecksum"
             = Ok csum)
    (Habsent : FirstChildElement root "BlockMap" = None) :
  let d := {| imageSize := image; blockSize := block; blocksCount := blocks;
              mappedBlocksCount := mapped; checksumType := ctype;
              bmapChecksum := csum; blockMap := [] |} in
  from_xml_data tn RootElement bytes = Ok d
  /\ forall (has_callback : bool) (fuel : nat) (st : State),
       final (copy d has_callback fuel st) = st
       /\ (block <> 0 -> status (copy d has_callback fuel st) = Finished).
Proof.
  intros d. split.
  - unfold from_xml_data. destruct bytes as [| c bytes]; [congruence |].
    rewrite Hroot, Himage, Hblock, Hblocks, Hmapped, Hctype, Hcsum, Habsent.
    reflexivity.
  - intros has_callback fuel st. unfold copy. cbn [blockSize blockMap d].
    destruct (Z.eqb_spec block 0) as [-> | Hne]; cbn; split; congruence.
Qed.

Lemma from_xml_data_without_BlockMap_witness :
  from_xml_data "m" (fun _ => document "1048576" "4096" "256" "10" [])
    ["<"%char]
  = Ok {| imageSize := 1048576; blockSize := 4096; blocksCount := 256;
          mappedBlocksCount := 10; checksumType := "sha256"; bmapChecksum := "0";
          blockMap := [] |}.
Proof.
  refine (proj1 (from_xml_data_without_BlockMap "m"
            (fun _ => document "1048576" "4096" "256" "10" [])
            ["<"%char] _ 1048576 4096 256 10 "sha256" "0" _ _ _ _ _ _ _ _ _)).
  - discriminate.
  - reflexivity.
  - reflexivity.
  - reflexivity.
  - reflexivity.
  - reflexivity.
  - reflexivity.
  - reflexivity.
  - reflexivity.
Defined.

(** ** The copy loop *)

Section StreamCalls.
(** What each call changes in the state. *)

Lemma do_read_calls n st : calls (do_read n st) = calls st ++ [read n].
Proof. unfold do_read. cbn. destruct (wicFail st); reflexivity. Qed.

Lemma do_read_progress n st : progress (do_read n st) = progress st.
Proof. unfold do_read. cbn. destruct (wicFail st); reflexivity. Qed.

Lemma do_read_devPos n st : devPos (do_read n st) = devPos st.
Proof. unfold do_read. cbn. destruct (wicFail st); reflexivity. Qed.


Lemma do_fwrite_calls n st : calls (do_fwrite n st) = calls st ++ [fwrite n].
Proof. reflexivity. Qed.

Lemma do_fwrite_progress n st : progress (do_fwrite n st) = progress st.
Proof. reflexivity. Qed.

Lemma do_fwrite_devPos n st : devPos (do_fwrite n st) = devPos st + n.
Proof. reflexivity. Qed.


Lemma advance_calls cb c st :
  calls (advance cb c st)
  = calls st ++ (if cb then [callback {| mappedBlocks := mappedBlocks (progress st);
                                         blocksWritten := wrap64 (blocksWritten (progress st) + c) |}]
                 else []).
Proof. unfold advance. destruct cb; cbn; [reflexivity | rewrite app_nil_r; reflexivity]. Qed.

Lemma advance_progress cb c st :
  progress (advance cb c st)
  = {| mappedBlocks := mappedBlocks (progress st);
       blocksWritten := wrap64 (blocksWritten (progress st) + c) |}.
Proof. unfold advance. destruct cb; reflexivity. Qed.

Lemma advance_devPos cb c st : devPos (advance cb c st) = devPos st.
Proof. unfold advance. destruct cb; reflexivity. Qed.





End StreamCalls.

Section ChunkSizes.
Lemma chunk_sizes_0 b : 0 < b -> chunk_sizes b 0 = [].
Proof. intros H. unfold chunk_sizes. rewrite Z.div_0_l, Z.mod_0_l by lia. reflexivity. Qed.

Lemma chunk_sizes_step b n : 0 < b -> 0 < n ->
  chunk_sizes b n = Z.min b n :: chunk_sizes b (n - Z.min b n).
Proof.
  intros Hb Hn. unfold chunk_sizes.
  destruct (Z.lt_ge_cases b n) as [Hlt | Hge].
  - rewrite Z.min_l by lia.
    assert (Hdiv : n / b = (n - b) / b + 1).
    { replace n with ((n - b) + 1 * b) at 1 by lia. apply Z.div_add. lia. }
    assert (Hmod : n mod b = (n - b) mod b).
    { replace n with ((n - b) + 1 * b) at 1 by lia. apply Z.mod_add. lia. }
    assert (0 <= (n - b) / b) by (apply Z.div_pos; lia).
    rewrite Hdiv, Hmod, Z2Nat.inj_add by lia. rewrite Nat.add_comm. reflexivity.
  - rewrite Z.min_r by lia. rewrite Z.sub_diag, Z.div_0_l, Z.mod_0_l by lia.
    cbn [Z.to_nat repeat Z.eqb app].
    destruct (Z.eq_dec n b) as [-> | Hne].
    + rewrite Z.div_same, Z.mod_same by lia. reflexivity.
    + rewrite Z.div_small, Z.mod_small by lia.
      destruct (Z.eqb_spec n 0); [lia | reflexivity].
Qed.




End ChunkSizes.

Section Chunks.
Variable bmapFile : BmapFile.
Variable has_callback : bool.

Let bs := blockSize bmapFile.
Let bmax := bufferMaxBlocks bmapFile.

Lemma buffSize_small : 0 < bs <= MAX_BUF_SIZE ->
  buffSize bmapFile = Z.min (2048 * bs) MAX_BUF_SIZE.
Proof.
  intros H. unfold buffSize, wrap64, MAX_BUF_SIZE in *. fold bs.
  rewrite (Z.mod_small (bs * 1024)) by lia.
  rewrite Z.mod_small by lia. f_equal. lia.
Qed.

Lemma bufferMaxBlocks_bounds : 0 < bs <= MAX_BUF_SIZE ->
  1 <= bmax <= 2048 /\ bmax * bs <= MAX_BUF_SIZE.
Proof.
  intros H. unfold bmax, bufferMaxBlocks. rewrite buffSize_small by exact H. fold bs.
  assert (Hlo : 1 * bs <= Z.min (2048 * bs) MAX_BUF_SIZE) by lia.
  assert (Hhi : Z.min (2048 * bs) MAX_BUF_SIZE <= 2048 * bs) by lia.
  repeat split.
  - apply Z.div_le_lower_bound; lia.
  - apply Z.div_le_upper_bound; lia.
  - pose proof (Z.mul_div_le (Z.min (2048 * bs) MAX_BUF_SIZE) bs). lia.
Qed.

(** What one turn of the inner loop does besides moving bytes. *)
Lemma chunk_effect (c : Z) (st : State) :
  let st' := advance has_callback c (do_fwrite (c * bs) (do_read (c * bs) st)) in
  calls st' = calls st
              ++ chunk_calls has_callback bs (mappedBlocks (progress st))
                   (blocksWritten (progress st)) [c]
  /\ progress st' = {| mappedBlocks := mappedBlocks (progress st);
                       blocksWritten := wrap64 (blocksWritten (progress st) + c) |}
  /\ devPos st' = devPos st + c * bs.
Proof.
  cbv zeta.
  rewrite advance_calls, advance_progress, advance_devPos.
  rewrite do_fwrite_calls, do_fwrite_progress, do_fwrite_devPos.
  rewrite do_read_calls, do_read_progress, do_read_devPos.
  cbn [chunk_calls]. rewrite app_nil_r, <- !app_assoc. cbn [app].
  repeat split; reflexivity.
Qed.

(** The inner loop, with enough fuel, runs one turn per chunk. *)
Lemma transfer_chunks : 0 < bs <= MAX_BUF_SIZE ->
  forall (fuel : nat) (n : Z) (st : State),
    0 <= n <= SIZE_MAX ->
    0 <= blocksWritten (progress st) <= SIZE_MAX ->
    (length (chunk_sizes bmax n) <= fuel)%nat ->
    let o := transfer bmapFile has_callback fuel n st in
    status o = Finished
    /\ calls (final o)
       = calls st ++ chunk_calls has_callback bs (mappedBlocks (progress st))
                       (blocksWritten (progress st)) (chunk_sizes bmax n)
    /\ progress (final o)
       = {| mappedBlocks := mappedBlocks (progress st);
            blocksWritten := wrap64 (blocksWritten (progress st) + n) |}
    /\ devPos (final o) = devPos st + n * bs.
Proof.
  intros Hbs. destruct (bufferMaxBlocks_bounds Hbs) as [Hbmax Hbytes].
  assert (Hdone : forall fuel st, 0 <= blocksWritten (progress st) <= SIZE_MAX ->
    let o := transfer bmapFile has_callback fuel 0 st in
    status o = Finished
    /\ calls (final o)
       = calls st ++ chunk_calls has_callback bs (mappedBlocks (progress st))
                       (blocksWritten (progress st)) (chunk_sizes bmax 0)
    /\ progress (final o)
       = {| mappedBlocks := mappedBlocks (progress st);
            blocksWritten := wrap64 (blocksWritten (progress st) + 0) |}
    /\ devPos (final o) = devPos st + 0 * bs).
  { intros fuel st Hw. rewrite chunk_sizes_0 by lia.
    destruct fuel; cbn; rewrite app_nil_r, Z.add_0_r;
      (repeat split; try lia);
      destruct (progress st) as [m w]; cbn in *; unfold wrap64;
      rewrite Z.mod_small by (unfold SIZE_MAX in *; lia); reflexivity. }
  induction fuel as [| fuel IH]; intros n st Hn Hw Hfuel;
    (destruct (Z.eq_dec n 0) as [-> | Hpos]; [apply Hdone; exact Hw |]).
  - rewrite chunk_sizes_step in Hfuel by lia. cbn in Hfuel. lia.
  - rewrite chunk_sizes_step in * by lia. cbn [length] in Hfuel.
    cbn [transfer]. fold bmax bs.
    destruct (Z.gtb_spec n 0) as [_ | ?]; [| lia].
    assert (Hrb : (if bmax <? n then bmax else n) = Z.min bmax n).
    { destruct (Z.ltb_spec bmax n); lia. }
    rewrite Hrb. set (c := Z.min bmax n) in *.
    assert (Hc : 0 < c <= bmax /\ c <= n) by (subst c; lia).
    assert (Hbc : wrap64 (c * bs) = c * bs).
    { unfold wrap64. apply Z.mod_small. unfold MAX_BUF_SIZE in *. nia. }
    assert (Hrest : wrap64 (n - c) = n - c).
    { unfold wrap64. apply Z.mod_small. unfold SIZE_MAX in *. lia. }
    rewrite Hbc, Hrest.
    destruct (chunk_effect c st) as (Hcalls & Hprog & Hpos').
    set (st' := advance has_callback c (do_fwrite (c * bs) (do_read (c * bs) st))) in *.
    destruct (IH (n - c) st') as (Hs & Hcl & Hpr & Hdp).
    + unfold SIZE_MAX in *. lia.
    + rewrite Hprog. cbn. unfold wrap64, SIZE_MAX.
      pose proof (Z.mod_pos_bound (blocksWritten (progress st) + c) (2 ^ 64)). lia.
    + lia.
    + repeat split.
      * exact Hs.
      * rewrite Hcl, Hcalls, Hprog. cbn [mappedBlocks blocksWritten chunk_calls].
        rewrite <- !app_assoc. cbn [app]. reflexivity.
      * rewrite Hpr, Hprog. cbn [mappedBlocks blocksWritten]. f_equal.
        unfold wrap64. rewrite Zplus_mod_idemp_l. f_equal. lia.
      * rewrite Hdp, Hpos'. lia.
Qed.

End Chunks.

(** C8, evaluated on the code. The buffer is capped at 8 MiB for every
    block size, and its capacity in blocks is the quotient
    [buff.size() / blockSize]: for a block of more than 8 MiB it is 0. Each
    turn of the inner loop then takes [readBlocks = 0] blocks: it leaves
    [blocksWritten] and [blockCount] as they were, and the loop over a
    range of one block or more is still running whatever fuel it is given;
    the range is never transferred. *)
Theorem transfer_oversized_block_never_ends (bmapFile : BmapFile)
    (has_callback : bool) (range : Range) (st : State)
    (Hbs : MAX_BUF_SIZE < blockSize bmapFile)
    (Hn : 0 < blockCount range <= SIZE_MAX)
    (Hw : 0 <= blocksWritten (progress st) <= SIZE_MAX) :
  bufferMaxBlocks bmapFile = 0
  /\ forall fuel : nat,
       status (transfer bmapFile has_callback fuel (blockCount range) st) = OutOfFuel
       /\ progress (final (transfer bmapFile has_callback fuel (blockCount range) st))
          = progress st
       /\ status (copy_range bmapFile has_callback fuel range st) = OutOfFuel.
Proof.
  assert (Hmax : bufferMaxBlocks bmapFile = 0).
  { unfold bufferMaxBlocks, buffSize. apply Z.div_small.
    pose proof (Z.mod_pos_bound (wrap64 (blockSize bmapFile * 1024) * 2) (2 ^ 64)
                  ltac:(lia)) as Hb.
    unfold wrap64 at 1. unfold MAX_BUF_SIZE in *. lia. }
  split; [exact Hmax |].
  assert (Ht : forall (fuel : nat) (s : State),
            0 <= blocksWritten (progress s) <= SIZE_MAX ->
            status (transfer bmapFile has_callback fuel (blockCount range) s) = OutOfFuel
            /\ progress (final (transfer bmapFile has_callback fuel (blockCount range) s))
               = progress s).
  { induction fuel as [| fuel IH]; intros s Hs; cbn [transfer];
      destruct (Z.gtb_spec (blockCount range) 0) as [_ | Hle]; try lia.
    - cbn. auto.
    - rewrite Hmax. destruct (Z.ltb_spec 0 (blockCount range)) as [_ | Hle]; [| lia].
      rewrite Z.mul_0_l, Z.sub_0_r. change (wrap64 0) with 0.
      replace (wrap64 (blockCount range)) with (blockCount range)
        by (unfold wrap64; rewrite Z.mod_small; unfold SIZE_MAX in *; lia).
      assert (Hp : progress (advance has_callback 0 (do_fwrite 0 (do_read 0 s)))
                   = progress s).
      { rewrite advance_progress, do_fwrite_progress, do_read_progress.
        destruct (progress s) as [m w] eqn:E. cbn [mappedBlocks blocksWritten] in *.
        f_equal. unfold wrap64. rewrite Z.add_0_r, Z.mod_small;
          unfold SIZE_MAX in *; lia. }
      destruct (IH (advance has_callback 0 (do_fwrite 0 (do_read 0 s)))) as [H1 H2];
        [rewrite Hp; exact Hs |].
      split; [exact H1 | now rewrite H2]. }
  intros fuel. destruct (Ht fuel st Hw) as [H1 H2].
  split; [exact H1 |]. split; [exact H2 |].
  unfold copy_range.
  set (st1 := if offset range >? blocksWritten (progress st) then _ else st).
  assert (Hp1 : progress st1 = progress st).
  { unfold st1. destruct (offset range >? _); reflexivity. }
  destruct (Ht fuel st1) as [H3 _]; [rewrite Hp1; exact Hw |].
  rewrite H3. exact H3.
Qed.

Lemma transfer_oversized_block_never_ends_witness :
  bufferMaxBlocks (descriptor (MAX_BUF_SIZE + 1) 1 [(0, 1)]) = 0
  /\ forall fuel : nat,
       status (transfer (descriptor (MAX_BUF_SIZE + 1) 1 [(0, 1)]) true fuel 1
                 (opened (descriptor (MAX_BUF_SIZE + 1) 1 [(0, 1)]) []))
       = OutOfFuel
       /\ progress (final (transfer (descriptor (MAX_BUF_SIZE + 1) 1 [(0, 1)]) true fuel 1
                             (opened (descriptor (MAX_BUF_SIZE + 1) 1 [(0, 1)]) [])))
          = {| mappedBlocks := 1; blocksWritten := 0 |}
       /\ status (copy_range (descriptor (MAX_BUF_SIZE + 1) 1 [(0, 1)]) true fuel
                    {| offset := 0; blockCount := 1; checksum := "" |}
                    (opened (descriptor (MAX_BUF_SIZE + 1) 1 [(0, 1)]) []))
          = OutOfFuel.
Proof.
  refine (transfer_oversized_block_never_ends (descriptor (MAX_BUF_SIZE + 1) 1 [(0, 1)])
            true {| offset := 0; blockCount := 1; checksum := "" |}
            (opened (descriptor (MAX_BUF_SIZE + 1) 1 [(0, 1)]) []) _ _ _).
  - vm_compute. reflexivity.
  - vm_compute. split; [reflexivity | discriminate].
  - vm_compute. split; discriminate.
Defined.



(** C1, evaluated on the code. With blocks of 4096 bytes and the ranges
    [{0,2},{10,3}], on an image whose block [b] is filled with the byte [b]:
    the gap before the second range is crossed by [fseek] and [seekg] calls
    of 8, which move both streams by 8 bytes and not by 8 blocks; the second
    range is then written from byte 8200 on with the image bytes found at
    8200, and nothing reaches byte 40960, where block 10 belongs. With blocks
    of one byte and a third range at block 20, the third seek moves by
    20 - 5 from byte 13: the block lands at byte 28. *)
Theorem copy_seeks_bytes_for_blocks :
  let d := descriptor 4096 5 [(0, 2); (10, 3)] in
  let o := copy d true 1 (opened d (image 4096 16)) in
  let d1 := descriptor 1 6 [(0, 2); (10, 3); (20, 1)] in
  let o1 := copy d1 true 1 (opened d1 (image 1 32)) in
  status o = Finished
  /\ calls (final o)
     = [read 8192; fwrite 8192;
        callback {| mappedBlocks := 5; blocksWritten := 2 |}; fsync;
        fseek 8; seekg 8; read 12288; fwrite 12288;
        callback {| mappedBlocks := 5; blocksWritten := 5 |}; fsync]
  /\ devPos (final o) = 8200 + 12288
  /\ devData (final o) !! 8199 = None
  /\ devData (final o) !! 8200 = Some 2
  /\ devData (final o) !! (10 * 4096) = None
  /\ status o1 = Finished
  /\ devData (final o1) !! 10 = Some 10
  /\ devData (final o1) !! 20 = None
  /\ devData (final o1) !! 28 = Some 28.
Proof. vm_compute. repeat split; reflexivity. Qed.

(** ** Single precision arithmetic *)

Ltac split_tests :=
  repeat match goal with
    | |- context [?a <=? ?b] => destruct (Z.leb_spec a b)
    | |- context [?a <? ?b] => destruct (Z.ltb_spec a b)
    | |- context [?a =? ?b] => destruct (Z.eqb_spec a b)
    end.

Lemma digits2_pos_bounds (p : positive) :
  2 ^ (Zpos (digits2_pos p) - 1) <= Zpos p < 2 ^ Zpos (digits2_pos p).
Proof.
  induction p as [p IH | p IH |]; cbn [digits2_pos].
  - rewrite Pos2Z.inj_succ. replace (Z.succ (Zpos (digits2_pos p)) - 1) with (Z.succ (Zpos (digits2_pos p) - 1)) by lia.
    rewrite !Z.pow_succ_r by lia. lia.
  - rewrite Pos2Z.inj_succ. replace (Z.succ (Zpos (digits2_pos p)) - 1) with (Z.succ (Zpos (digits2_pos p) - 1)) by lia.
    rewrite !Z.pow_succ_r by lia. lia.
  - cbn. lia.
Qed.

Lemma shr_1_locates N D mrs : locates N D mrs -> locates N (2 * D) (shr_1 mrs).
Proof.
  destruct mrs as [m r s]. unfold locates. cbn [shr_m shr_r shr_s].
  intros (HD & Hm & Hb & -> & ->).
  destruct m as [| [p | p |] |]; cbn [shr_1 shr_m shr_r shr_s]; try lia;
    try (assert (Hp1 : Z.pos p~1 = 2 * Z.pos p + 1) by apply Pos2Z.inj_xI);
    try (assert (Hp0 : Z.pos p~0 = 2 * Z.pos p) by apply Pos2Z.inj_xO);
    (split; [lia |]); (split; [lia |]); (split; [lia |]);
    split; split_tests; cbn; try reflexivity; try lia.
Qed.

Lemma pow2_xI (k : positive) : 2 ^ Z.pos k~1 = 2 * 2 ^ Z.pos k * 2 ^ Z.pos k.
Proof.
  assert (E : Z.pos k~1 = 1 + Z.pos k + Z.pos k) by lia. rewrite E.
  rewrite !Z.pow_add_r by lia. reflexivity.
Qed.

Lemma pow2_xO (k : positive) : 2 ^ Z.pos k~0 = 2 ^ Z.pos k * 2 ^ Z.pos k.
Proof.
  assert (E : Z.pos k~0 = Z.pos k + Z.pos k) by lia. rewrite E.
  rewrite !Z.pow_add_r by lia. reflexivity.
Qed.

Lemma iter_shr_1_locates N (k : positive) : forall D mrs,
  locates N D mrs -> locates N (D * 2 ^ Zpos k) (SpecFloat.iter_pos shr_1 k mrs).
Proof.
  induction k as [k IH | k IH |]; intros D mrs H; cbn [SpecFloat.iter_pos].
  - apply shr_1_locates, IH, IH in H.
    replace (D * 2 ^ Z.pos k~1) with (2 * D * 2 ^ Z.pos k * 2 ^ Z.pos k); [exact H |].
    rewrite pow2_xI. ring.
  - apply IH, IH in H.
    replace (D * 2 ^ Z.pos k~0) with (D * 2 ^ Z.pos k * 2 ^ Z.pos k); [exact H |].
    rewrite pow2_xO. ring.
  - apply shr_1_locates in H. replace (D * 2 ^ 1) with (2 * D) by lia. exact H.
Qed.

(** The location a record stands for, rounded. *)
Lemma round_locates N D mrs : locates N D mrs ->
  round_nearest_even (shr_m mrs) (loc_of_shr_record mrs) = rne_div N D.
Proof.
  destruct mrs as [m r s]. unfold locates. cbn [shr_m shr_r shr_s].
  intros (HD & Hm & Hb & -> & ->).
  assert (Hq : N / D = m) by (symmetry; apply Z.div_unique with (N - m * D); lia).
  assert (Hr : N mod D = N - m * D) by (rewrite Z.mod_eq, Hq by lia; lia).
  unfold rne_div. rewrite Hq, Hr. cbn [loc_of_shr_record].
  split_tests; cbn; try reflexivity; try lia.
Qed.

Lemma rne_div_floor N D : 0 < D -> rne_div N D = N / D \/ rne_div N D = N / D + 1.
Proof. intros HD. unfold rne_div. split_tests; destruct (Z.even (N / D)); auto. Qed.

Lemma digits2_pos_unique (p : positive) (n : Z) :
  2 ^ (n - 1) <= Zpos p < 2 ^ n -> Zpos (digits2_pos p) = n.
Proof.
  intros H. pose proof (digits2_pos_bounds p) as B.
  set (d := Zpos (digits2_pos p)) in *.
  assert (0 < n).
  { destruct (Z.lt_ge_cases 0 n); [assumption |].
    destruct (Z.eq_dec n 0) as [-> | ?]; [cbn in H; lia |].
    rewrite (Z.pow_neg_r 2 n) in H by lia. lia. }
  destruct (Z.lt_trichotomy d n) as [Hlt | [Heq | Hgt]]; [| assumption |].
  - assert (2 ^ d <= 2 ^ (n - 1)) by (apply Z.pow_le_mono_r; lia). lia.
  - assert (2 ^ n <= 2 ^ (d - 1)) by (apply Z.pow_le_mono_r; lia). lia.
Qed.

Lemma locates_of_loc_floor N D m l :
  locates N D (shr_record_of_loc m l) -> 0 < D /\ m * D <= N < (m + 1) * D.
Proof.
  unfold locates. destruct l as [| []]; cbn [shr_record_of_loc shr_m]; intuition lia.
Qed.

Lemma shr_m_of_loc m l : shr_m (shr_record_of_loc m l) = m.
Proof. destruct l as [| []]; reflexivity. Qed.

(** The rounding step of every operation, on a positive value in the range
    of the normal numbers: the mantissa is the fraction scaled by [2^k] and
    rounded, carried into the next binade when it reaches [2^24]. *)
Lemma binary_round_aux_normal (mx : positive) (ex : Z) (lx : location) (N D : Z) :
  let d := Zpos (digits2_pos mx) in
  let k := d - 24 in
  let M := rne_div N (D * 2 ^ k) in
  locates N D (shr_record_of_loc (Zpos mx) lx) ->
  24 <= d -> -149 <= ex + k -> ex + k < 104 ->
  2 ^ 23 <= M <= 2 ^ 24
  /\ binary_round_aux cxx.prec cxx.emax false (Zpos mx) ex lx
     = if M <? 2 ^ 24 then S754_finite false (Z.to_pos M) (ex + k)
       else S754_finite false (Z.to_pos (2 ^ 23)) (ex + k + 1).
Proof.
  intros d k M Hloc Hd Hlo Hhi.
  pose proof (digits2_pos_bounds mx) as Hmx. fold d in Hmx.
  destruct (locates_of_loc_floor _ _ _ _ Hloc) as [HD HN].
  assert (Hk : 0 <= k) by (unfold k; lia).
  assert (Hpk : 0 < 2 ^ k) by (apply Z.pow_pos_nonneg; lia).
  assert (Hd1 : 2 ^ (d - 1) = 2 ^ 23 * 2 ^ k).
  { replace (d - 1) with (23 + k) by (unfold k; lia). apply Z.pow_add_r; lia. }
  assert (Hd2 : 2 ^ d = 2 ^ 24 * 2 ^ k).
  { replace d with (24 + k) at 1 by (unfold k; lia). apply Z.pow_add_r; lia. }
  (* the first shift *)
  assert (Hshift : exists mrs', shr_fexp cxx.prec cxx.emax (Zpos mx) ex lx = (mrs', ex + k)
                                /\ locates N (D * 2 ^ k) mrs').
  { unfold shr_fexp, fexp, emin, cxx.prec, cxx.emax. cbn [Zdigits2]. fold d.
    replace (Z.max (d + ex - 24) (3 - 128 - 24) - ex) with k by (unfold k; lia).
    destruct k as [| p | p] eqn:Ek; [| | lia].
    - cbn [shr]. eexists. split; [rewrite Z.add_0_r; reflexivity |].
      rewrite Z.mul_1_r. exact Hloc.
    - cbn [shr]. eexists. split; [reflexivity |].
      apply iter_shr_1_locates. exact Hloc. }
  destruct Hshift as (mrs' & Hs1 & Hloc').
  pose proof (round_locates _ _ _ Hloc') as Hround. fold M in Hround.
  assert (HM : 2 ^ 23 <= M <= 2 ^ 24).
  { destruct Hloc' as (HD' & Hm' & Hb' & _).
    assert (Hq : N / (D * 2 ^ k) = shr_m mrs')
      by (symmetry; apply Z.div_unique with (N - shr_m mrs' * (D * 2 ^ k)); lia).
    assert (2 ^ 23 <= shr_m mrs' < 2 ^ 24) by nia.
    destruct (rne_div_floor N (D * 2 ^ k) HD') as [E | E]; fold M in E; lia. }
  split; [exact HM |].
  unfold binary_round_aux. rewrite Hs1, Hround.
  destruct (Z.ltb_spec M (2 ^ 24)) as [Hlt | Hge].
  - destruct M as [| pM |] eqn:EM; try lia.
    assert (HdM : Zpos (digits2_pos pM) = 24) by (apply digits2_pos_unique; lia).
    unfold shr_fexp, fexp, emin, cxx.prec, cxx.emax. cbn [Zdigits2]. rewrite HdM.
    replace (Z.max (24 + (ex + k) - 24) (3 - 128 - 24) - (ex + k)) with 0 by lia.
    cbn [shr shr_record_of_loc shr_m].
    destruct (Z.leb_spec (ex + k) (128 - 24)); [reflexivity | lia].
  - assert (M = 2 ^ 24) as -> by lia.
    unfold shr_fexp, fexp, emin, cxx.prec, cxx.emax.
    change (Zdigits2 (2 ^ 24)) with 25.
    replace (Z.max (25 + (ex + k) - 24) (3 - 128 - 24) - (ex + k)) with 1 by lia.
    change (shr (shr_record_of_loc (2 ^ 24) loc_Exact) (ex + k) 1)
      with ({| shr_m := Zpos (Z.to_pos (2 ^ 23)); shr_r := false; shr_s := false |},
            ex + k + 1).
    cbn [shr_m].
    destruct (Z.leb_spec (ex + k + 1) (128 - 24)); [reflexivity | lia].
Qed.

(** ** Properties of rounding to nearest even *)

Lemma rne_div_near N D : 0 < D ->
  - D <= 2 * (rne_div N D * D - N) <= D.
Proof.
  intros HD. unfold rne_div.
  pose proof (Z.div_mod N D ltac:(lia)). pose proof (Z.mod_pos_bound N D HD).
  split_tests; destruct (Z.even (N / D)); nia.
Qed.



(** ** Real values *)

Lemma pow2_pos e : (0 < pow2 e)%R.
Proof. apply powerRZ_lt. lra. Qed.

Lemma pow2_add a b : pow2 (a + b) = (pow2 a * pow2 b)%R.
Proof. apply powerRZ_add. lra. Qed.

Lemma pow2_IZR e : 0 <= e -> pow2 e = IZR (2 ^ e).
Proof.
  intros He. unfold pow2. rewrite <- (Z2Nat.id e He) at 1.
  rewrite <- pow_powerRZ, pow_IZR, Z2Nat.id by exact He. reflexivity.
Qed.


Lemma pow2_lt a b : a < b -> (pow2 a < pow2 b)%R.
Proof.
  intros H. replace b with (a + (b - a)) by lia. rewrite pow2_add.
  rewrite (pow2_IZR (b - a)) by lia.
  assert (2 ^ 1 <= 2 ^ (b - a)) by (apply Z.pow_le_mono_r; lia).
  apply IZR_le in H0. change (IZR (2 ^ 1)) with 2%R in H0.
  pose proof (pow2_pos a). nra.
Qed.

Lemma rounds_value x M E :
  x = (if M <? 2 ^ 24 then S754_finite false (Z.to_pos M) E
       else S754_finite false (Z.to_pos (2 ^ 23)) (E + 1)) ->
  2 ^ 23 <= M <= 2 ^ 24 ->
  F2R x = (IZR M * pow2 E)%R.
Proof.
  intros -> HM. destruct (Z.ltb_spec M (2 ^ 24)).
  - cbn [F2R]. rewrite Z2Pos.id by lia. lra.
  - assert (M = 2 ^ 24) as -> by lia. cbn [F2R]. rewrite pow2_add.
    rewrite Z2Pos.id by lia. rewrite (pow2_IZR 1) by lia.
    change (IZR (2 ^ 24)) with (2 * IZR (2 ^ 23))%R. change (IZR (2 ^ 1)) with 2%R. lra.
Qed.

Lemma binary_round_aux_rounds (mx : positive) (ex : Z) (lx : location) (N D : Z) :
  let d := Zpos (digits2_pos mx) in
  let k := d - 24 in
  locates N D (shr_record_of_loc (Zpos mx) lx) ->
  24 <= d -> -149 <= ex + k -> ex + k < 104 ->
  rounds (ex + k) (IZR N / IZR D * pow2 ex)
    (binary_round_aux cxx.prec cxx.emax false (Zpos mx) ex lx).
Proof.
  intros d k Hloc Hd Hlo Hhi.
  destruct (binary_round_aux_normal mx ex lx N D Hloc Hd Hlo Hhi) as [HM Hres].
  fold d k in HM, Hres.
  pose proof (digits2_pos_bounds mx) as Hmx. fold d in Hmx.
  destruct (locates_of_loc_floor _ _ _ _ Hloc) as [HD HN].
  assert (Hk : 0 <= k) by (unfold k; lia).
  assert (Hpk : 0 < 2 ^ k) by (apply Z.pow_pos_nonneg; lia).
  exists (rne_div N (D * 2 ^ k)), N, (D * 2 ^ k).
  assert (HDr : (0 < IZR D)%R) by (apply IZR_lt; lia).
  assert (Hkr : (0 < IZR (2 ^ k))%R) by (apply IZR_lt; lia).
  assert (HX : (IZR N / IZR D * pow2 ex)%R
               = (IZR N / IZR (D * 2 ^ k) * pow2 (ex + k))%R).
  { rewrite pow2_add, (pow2_IZR k), mult_IZR by lia. field. lra. }
  split; [exact Hres |]. split; [exact HM |]. split; [lia |]. split; [reflexivity |].
  split; [exact HX |].
  replace (ex + k + 23) with ((d - 1) + ex) by (unfold k; lia).
  replace (ex + k + 24) with (d + ex) by (unfold k; lia).
  rewrite !pow2_add, (pow2_IZR (d - 1)), (pow2_IZR d) by lia.
  pose proof (pow2_pos ex) as Hex.
  assert (H1 : (IZR (Zpos mx) <= IZR N / IZR D)%R).
  { apply Rmult_le_reg_r with (IZR D); [exact HDr |].
    replace (IZR N / IZR D * IZR D)%R with (IZR N) by (field; lra).
    rewrite <- mult_IZR. apply IZR_le. lia. }
  assert (H2 : (IZR N / IZR D < IZR (Zpos mx + 1))%R).
  { apply Rmult_lt_reg_r with (IZR D); [exact HDr |].
    replace (IZR N / IZR D * IZR D)%R with (IZR N) by (field; lra).
    rewrite <- mult_IZR. apply IZR_lt. lia. }
  assert (H3 : (IZR (2 ^ (d - 1)) <= IZR (Zpos mx))%R) by (apply IZR_le; lia).
  assert (H4 : (IZR (Zpos mx + 1) <= IZR (2 ^ d))%R) by (apply IZR_le; lia).
  split.
  - apply Rmult_le_compat_r; [apply Rlt_le, Hex |].
    apply Rle_trans with (IZR (Z.pos mx)); assumption.
  - apply Rmult_lt_compat_r; [exact Hex |].
    eapply Rlt_le_trans; [exact H2 | exact H4].
Qed.

Lemma rounds_normal E X x : rounds E X x ->
  exists m e, normal x m e /\ E <= e <= E + 1
              /\ (pow2 (e + 23) <= F2R x <= pow2 (e + 24))%R.
Proof.
  intros (M & N & D & Hx & HM & HD & HMr & HX & HB).
  pose proof (rounds_value x M E Hx HM) as Hv. clear HX HB.
  assert (H23 : pow2 (E + 23) = (IZR (2 ^ 23) * pow2 E)%R).
  { rewrite Z.add_comm, pow2_add, (pow2_IZR 23) by lia. reflexivity. }
  assert (H24 : pow2 (E + 24) = (IZR (2 ^ 24) * pow2 E)%R).
  { rewrite Z.add_comm, pow2_add, (pow2_IZR 24) by lia. reflexivity. }
  assert (H25 : pow2 (E + 1 + 24) = (2 * IZR (2 ^ 24) * pow2 E)%R).
  { replace (E + 1 + 24) with (1 + 24 + E) by lia.
    rewrite !pow2_add, (pow2_IZR 24), (pow2_IZR 1) by lia.
    change (IZR (2 ^ 1)) with 2%R. ring. }
  pose proof (pow2_pos E) as HE.
  assert (HMl : (IZR (2 ^ 23) <= IZR M)%R) by (apply IZR_le; lia).
  assert (HMh : (IZR M <= IZR (2 ^ 24))%R) by (apply IZR_le; lia).
  change (IZR (2 ^ 23)) with 8388608%R in *.
  change (IZR (2 ^ 24)) with 16777216%R in *.
  destruct (Z.ltb_spec M (2 ^ 24)) as [Hlt | Hge].
  - exists (Z.to_pos M), E. split; [| split; [lia |]].
    + split; [exact Hx |]. rewrite Z2Pos.id by lia. lia.
    + rewrite Hv, H23, H24. split; apply Rmult_le_compat_r; lra.
  - exists (Z.to_pos (2 ^ 23)), (E + 1). split; [| split; [lia |]].
    + split; [exact Hx |]. cbn. lia.
    + rewrite Hv. replace (E + 1 + 23) with (E + 24) by lia. rewrite H24, H25.
      assert (HMe : IZR M = 16777216%R) by (apply (f_equal IZR); lia).
      rewrite HMe. lra.
Qed.

(** The relative error of rounding is at most [2^-24]. *)
Lemma rounds_error E X x : rounds E X x ->
  (Rabs (F2R x - X) <= X / 16777216)%R.
Proof.
  intros (M & N & D & Hx & HM & HD & HMr & HX & HB).
  rewrite (rounds_value x M E Hx HM).
  pose proof (rne_div_near N D HD) as Hnear. rewrite <- HMr in Hnear.
  assert (HDr : (0 < IZR D)%R) by (apply IZR_lt; lia).
  pose proof (pow2_pos E) as HE.
  assert (H23 : pow2 (E + 23) = (IZR (2 ^ 23) * pow2 E)%R).
  { rewrite Z.add_comm, pow2_add, (pow2_IZR 23) by lia. reflexivity. }
  change (IZR (2 ^ 23)) with 8388608%R in H23.
  assert (Hn1 : (- IZR D <= 2 * (IZR M * IZR D - IZR N))%R).
  { rewrite <- opp_IZR, <- mult_IZR, <- minus_IZR, <- mult_IZR. apply IZR_le. lia. }
  assert (Hn2 : (2 * (IZR M * IZR D - IZR N) <= IZR D)%R).
  { rewrite <- mult_IZR, <- minus_IZR, <- mult_IZR. apply IZR_le. lia. }
  assert (Hfrac : (- (1 / 2) <= IZR M - IZR N / IZR D <= 1 / 2)%R).
  { split.
    - apply Rmult_le_reg_r with (2 * IZR D)%R; [lra |].
      replace ((IZR M - IZR N / IZR D) * (2 * IZR D))%R
        with (2 * (IZR M * IZR D - IZR N))%R by (field; lra). lra.
    - apply Rmult_le_reg_r with (2 * IZR D)%R; [lra |].
      replace ((IZR M - IZR N / IZR D) * (2 * IZR D))%R
        with (2 * (IZR M * IZR D - IZR N))%R by (field; lra). lra. }
  rewrite HX in *.
  replace (IZR M * pow2 E - IZR N / IZR D * pow2 E)%R
    with ((IZR M - IZR N / IZR D) * pow2 E)%R by ring.
  apply Rabs_le. split; nra.
Qed.


(** ** The three operations of [percent] *)

Lemma iter_xO (p c : positive) : Zpos (Pos.iter xO p c) = Zpos p * 2 ^ Zpos c.
Proof.
  change (Pos.iter xO p c) with (shift_pos c p).
  rewrite shift_pos_correct. change (Zpower_pos 2 c) with (2 ^ Zpos c). lia.
Qed.

Lemma locates_exact (m : Z) : 0 <= m -> locates m 1 (shr_record_of_loc m loc_Exact).
Proof.
  intros Hm. unfold locates. cbn [shr_record_of_loc shr_m shr_r shr_s].
  repeat split; try lia; split_tests; cbn; lia || reflexivity.
Qed.

(** [(float)n] is [n] rounded. *)
Lemma float_of_Z_rounds (n : Z) : 0 < n < 2 ^ 64 ->
  exists E, -23 <= E <= 40 /\ rounds E (IZR n) (cxx.float_of_Z n).
Proof.
  intros Hn. destruct n as [| p |]; try lia.
  pose proof (digits2_pos_bounds p) as Hp. set (d := Zpos (digits2_pos p)) in *.
  assert (Hd : 1 <= d <= 64).
  { split; [unfold d; lia |].
    destruct (Z.le_gt_cases d 64); [assumption |].
    assert (2 ^ 64 <= 2 ^ (d - 1)) by (apply Z.pow_le_mono_r; lia). lia. }
  unfold cxx.float_of_Z, binary_normalize, binary_round, shl_align, fexp, emin, cxx.prec, cxx.emax.
  fold d. replace (Z.max (d + 0 - 24) (3 - 128 - 24)) with (d - 24) by lia.
  replace (d - 24 - 0) with (d - 24) by lia.
  destruct (d - 24) as [| c | c] eqn:Ec.
  - pose proof (binary_round_aux_rounds p 0 loc_Exact (Zpos p) 1
                  (locates_exact (Zpos p) ltac:(lia))) as H.
    fold d in H. cbv zeta in H. rewrite Ec in H.
    specialize (H ltac:(lia) ltac:(lia) ltac:(lia)).
    replace (IZR (Zpos p)) with (IZR (Zpos p) / IZR 1 * pow2 0)%R
      by (unfold pow2; cbn; field).
    eexists. split; [| exact H]. lia.
  - pose proof (binary_round_aux_rounds p 0 loc_Exact (Zpos p) 1
                  (locates_exact (Zpos p) ltac:(lia))) as H.
    fold d in H. cbv zeta in H. rewrite Ec in H.
    specialize (H ltac:(lia) ltac:(lia) ltac:(lia)).
    replace (IZR (Zpos p)) with (IZR (Zpos p) / IZR 1 * pow2 0)%R
      by (unfold pow2; cbn; field).
    eexists. split; [| exact H]. lia.
  - set (mz := Pos.iter xO p c).
    assert (Hmz : Zpos mz = Zpos p * 2 ^ Zpos c) by apply iter_xO.
    assert (Hc : Zpos c = 24 - d) by lia.
    assert (Hpc : 0 < 2 ^ Zpos c) by (apply Z.pow_pos_nonneg; lia).
    assert (Hdz : Zpos (digits2_pos mz) = 24).
    { apply digits2_pos_unique. rewrite Hmz.
      replace (2 ^ (24 - 1)) with (2 ^ (d - 1) * 2 ^ Zpos c)
        by (rewrite <- Z.pow_add_r by lia; f_equal; lia).
      replace (2 ^ 24) with (2 ^ d * 2 ^ Zpos c)
        by (rewrite <- Z.pow_add_r by lia; f_equal; lia).
      nia. }
    pose proof (binary_round_aux_rounds mz (Zneg c) loc_Exact (Zpos mz) 1
                  (locates_exact (Zpos mz) ltac:(lia))) as H.
    cbv zeta in H. rewrite Hdz in H.
    specialize (H ltac:(lia) ltac:(lia) ltac:(lia)).
    replace (IZR (Zpos p)) with (IZR (Zpos mz) / IZR 1 * pow2 (Zneg c))%R.
    + eexists. split; [| exact H]. lia.
    + rewrite Hmz, mult_IZR, <- (pow2_IZR (Zpos c)) by lia.
      replace (IZR (Zpos p) * pow2 (Zpos c) / 1 * pow2 (Zneg c))%R
        with (IZR (Zpos p) * (pow2 (Zpos c) * pow2 (Zneg c)))%R by (field).
      rewrite <- pow2_add. replace (Zpos c + Zneg c) with 0 by lia.
      unfold pow2. cbn. ring.
Qed.

Lemma normal_F2R x m e : normal x m e -> F2R x = (IZR (Zpos m) * pow2 e)%R.
Proof. intros [-> _]. cbn. ring. Qed.

Lemma normal_digits x m e : normal x m e -> Zpos (digits2_pos m) = 24.
Proof. intros [_ H]. apply digits2_pos_unique. exact H. Qed.

(** The product of two normal numbers is the exact product rounded. *)
Lemma fmul_rounds a ma ea b mb eb : normal a ma ea -> normal b mb eb ->
  -172 <= ea + eb -> ea + eb < 80 ->
  exists E, ea + eb + 23 <= E <= ea + eb + 24 /\ rounds E (F2R a * F2R b) (cxx.fmul a b).
Proof.
  intros Ha Hb Hlo Hhi.
  rewrite (normal_F2R a ma ea Ha), (normal_F2R b mb eb Hb).
  destruct Ha as [-> Hma], Hb as [-> Hmb].
  unfold cxx.fmul. cbn [SFmul xorb].
  pose proof (digits2_pos_bounds (ma * mb)) as Hd.
  set (d := Zpos (digits2_pos (ma * mb))) in *.
  rewrite Pos2Z.inj_mul in Hd.
  assert (Hdr : 47 <= d <= 48).
  { split.
    - destruct (Z.le_gt_cases 47 d); [assumption |].
      assert (2 ^ d <= 2 ^ 46) by (apply Z.pow_le_mono_r; lia). nia.
    - destruct (Z.le_gt_cases d 48); [assumption |].
      assert (2 ^ 48 <= 2 ^ (d - 1)) by (apply Z.pow_le_mono_r; lia). nia. }
  pose proof (binary_round_aux_rounds (ma * mb) (ea + eb) loc_Exact
                (Zpos (ma * mb)) 1 (locates_exact (Zpos (ma * mb)) ltac:(lia))) as H.
  cbv zeta in H. fold d in H.
  specialize (H ltac:(lia) ltac:(lia) ltac:(lia)).
  replace (IZR (Zpos ma) * pow2 ea * (IZR (Zpos mb) * pow2 eb))%R
    with (IZR (Zpos (ma * mb)) / IZR 1 * pow2 (ea + eb))%R;
    [eexists; split; [| exact H]; lia |].
  rewrite Pos2Z.inj_mul, mult_IZR, pow2_add. field.
Qed.

Lemma locates_division (m q r : Z) : 0 < m -> 0 <= q -> 0 <= r < m ->
  locates (m * q + r) m (shr_record_of_loc q (new_location m r)).
Proof.
  intros Hm Hq Hr. unfold new_location, new_location_even, new_location_odd, locates.
  destruct (Z.even m) eqn:Ev.
  - destruct (Z.eqb_spec r 0) as [-> | Hr0].
    + cbn [shr_record_of_loc shr_m shr_r shr_s].
      repeat split; try lia; split_tests; cbn; lia || reflexivity.
    + destruct (Z.compare_spec (2 * r) m);
        cbn [shr_record_of_loc shr_m shr_r shr_s];
        repeat split; try lia; split_tests; cbn; lia || reflexivity.
  - assert (Hodd : 2 * r <> m).
    { intros E. rewrite <- E, Z.even_mul in Ev. discriminate. }
    destruct (Z.eqb_spec r 0) as [-> | Hr0].
    + cbn [shr_record_of_loc shr_m shr_r shr_s].
      repeat split; try lia; split_tests; cbn; lia || reflexivity.
    + destruct (Z.compare_spec (2 * r + 1) m);
        cbn [shr_record_of_loc shr_m shr_r shr_s];
        repeat split; try lia; split_tests; cbn; lia || reflexivity.
Qed.

(** The quotient of two normal numbers is the exact quotient rounded. *)
Lemma fdiv_rounds a ma ea b mb eb : normal a ma ea -> normal b mb eb ->
  -125 <= ea - eb -> ea - eb < 127 ->
  exists E, ea - eb - 24 <= E <= ea - eb - 23 /\ rounds E (F2R a / F2R b) (cxx.fdiv a b).
Proof.
  intros Ha Hb Hlo Hhi.
  rewrite (normal_F2R a ma ea Ha), (normal_F2R b mb eb Hb).
  pose proof (normal_digits a ma ea Ha) as Hda.
  pose proof (normal_digits b mb eb Hb) as Hdb.
  destruct Ha as [-> Hma], Hb as [-> Hmb].
  unfold cxx.fdiv. cbn [SFdiv xorb]. unfold SFdiv_core_binary, fexp, emin, cxx.prec, cxx.emax.
  cbn [Zdigits2]. rewrite Hda, Hdb.
  replace (Z.min (Z.max (24 + ea - (24 + eb) - 24) (3 - 128 - 24)) (ea - eb))
    with (ea - eb - 24) by lia.
  replace (ea - eb - (ea - eb - 24)) with 24 by lia.
  rewrite Z.shiftl_mul_pow2 by lia.
  set (m' := Zpos ma * 2 ^ 24).
  pose proof (Z.div_eucl_eq m' (Zpos mb) ltac:(lia)) as Heq.
  pose proof (Z.mod_pos_bound m' (Zpos mb) ltac:(lia)) as Hrem.
  unfold Z.modulo in Hrem.
  destruct (Z.div_eucl m' (Zpos mb)) as [q r].
  assert (Hq : 2 ^ 23 <= q < 2 ^ 25) by (unfold m' in *; nia).
  destruct q as [| pq |]; try lia.
  pose proof (digits2_pos_bounds pq) as Hd.
  set (d := Zpos (digits2_pos pq)) in *.
  assert (Hdr : 24 <= d <= 25).
  { split.
    - destruct (Z.le_gt_cases 24 d); [assumption |].
      assert (2 ^ d <= 2 ^ 23) by (apply Z.pow_le_mono_r; lia). lia.
    - destruct (Z.le_gt_cases d 25); [assumption |].
      assert (2 ^ 25 <= 2 ^ (d - 1)) by (apply Z.pow_le_mono_r; lia). lia. }
  pose proof (binary_round_aux_rounds pq (ea - eb - 24) (new_location (Zpos mb) r)
                m' (Zpos mb)) as H.
  cbv zeta in H. fold d in H. rewrite Heq in H at 1.
  specialize (H (locates_division (Zpos mb) (Zpos pq) r ltac:(lia) ltac:(lia) Hrem)
                ltac:(lia) ltac:(lia) ltac:(lia)).
  replace (IZR (Zpos ma) * pow2 ea / (IZR (Zpos mb) * pow2 eb))%R
    with (IZR m' / IZR (Zpos mb) * pow2 (ea - eb - 24))%R;
    [eexists; split; [| exact H]; lia |].
  unfold m'. rewrite mult_IZR, <- (pow2_IZR 24) by lia.
  assert (Hea : pow2 ea = (pow2 (ea - eb - 24) * pow2 eb * pow2 24)%R).
  { rewrite <- !pow2_add. f_equal. lia. }
  rewrite Hea.
  pose proof (pow2_pos eb). pose proof (pow2_pos 24).
  assert (0 < IZR (Zpos mb))%R by (apply IZR_lt; lia).
  field. split; lra.
Qed.

(** A normal number truncates to the integer just below it. *)
Lemma trunc_normal x m e :
  normal x m e ->
  exists t, cxx.trunc x = Some t /\ 0 <= t /\ (IZR t <= F2R x < IZR t + 1)%R.
Proof.
  intros Hx. rewrite (normal_F2R x m e Hx). destruct Hx as [-> Hm].
  cbn [cxx.trunc]. cbv zeta.
  destruct (Z.leb_spec 0 e) as [He | He].
  - exists (Zpos m * 2 ^ e). split; [reflexivity |]. split.
    + pose proof (Z.pow_pos_nonneg 2 e). nia.
    + rewrite mult_IZR, <- pow2_IZR by lia. lra.
  - exists (Zpos m / 2 ^ (- e)). split; [reflexivity |].
    assert (Hp : 0 < 2 ^ (- e)) by (apply Z.pow_pos_nonneg; lia).
    pose proof (Z.div_mod (Zpos m) (2 ^ (- e)) ltac:(lia)) as Hdm.
    pose proof (Z.mod_pos_bound (Zpos m) (2 ^ (- e)) Hp) as Hmod.
    split; [apply Z.div_pos; lia |].
    assert (Hpr : (0 < IZR (2 ^ (- e)))%R) by (apply IZR_lt; lia).
    set (t := Zpos m / 2 ^ (- e)) in *.
    assert (H1 : (IZR t * IZR (2 ^ (- e)) <= IZR (Zpos m))%R).
    { rewrite <- mult_IZR. apply IZR_le. lia. }
    assert (H2 : (IZR (Zpos m) < (IZR t + 1) * IZR (2 ^ (- e)))%R).
    { rewrite <- (plus_IZR t 1), <- mult_IZR. apply IZR_lt. lia. }
    assert (H3 : (pow2 e * IZR (2 ^ (- e)) = 1)%R).
    { rewrite <- pow2_IZR, <- pow2_add by lia. replace (e + - e) with 0 by lia.
      reflexivity. }
    set (P := IZR (2 ^ (- e))) in *. clearbody P.
    assert (He' : pow2 e = (/ P)%R).
    { apply Rmult_eq_reg_r with P; [| lra]. rewrite H3. field. lra. }
    rewrite He'.
    split.
    + apply Rmult_le_reg_r with P; [exact Hpr |].
      replace (IZR (Zpos m) * / P * P)%R with (IZR (Zpos m)) by (field; lra). exact H1.
    + apply Rmult_lt_reg_r with P; [exact Hpr |].
      replace (IZR (Zpos m) * / P * P)%R with (IZR (Zpos m)) by (field; lra). exact H2.
Qed.

(** ** The value of [100.0f / (float)m * (float)w] *)

Lemma float_100 : normal (cxx.float_of_Z 100) 13107200 (-17) /\ F2R (cxx.float_of_Z 100) = 100%R.
Proof.
  split.
  - split; [reflexivity |]. split; [apply Z.leb_le | apply Z.ltb_lt]; reflexivity.
  - change (cxx.float_of_Z 100) with (S754_finite false 13107200 (-17)).
    cbn [F2R].
    assert (H : (pow2 (-17) * pow2 17 = 1)%R).
    { rewrite <- pow2_add. reflexivity. }
    rewrite (pow2_IZR 17) in H by lia. change (IZR (2 ^ 17)) with 131072%R in H.
    lra.
Qed.

(** The steps of the computation, for positive operands: what each one
    rounds, and where the exponents lie. *)
Lemma percent_steps (mb bw : Z) : 0 < mb < 2 ^ 64 -> 0 < bw < 2 ^ 64 ->
  exists Em Eq Eb Ep,
    rounds Em (IZR mb) (cxx.float_of_Z mb)
    /\ rounds Eq (100 / F2R (cxx.float_of_Z mb)) (quotient mb)
    /\ rounds Eb (IZR bw) (cxx.float_of_Z bw)
    /\ rounds Ep (F2R (quotient mb) * F2R (cxx.float_of_Z bw)) (product mb bw).
Proof.
  intros Hmb Hbw.
  destruct (float_of_Z_rounds mb Hmb) as (Em & HEm & Rm).
  destruct (float_of_Z_rounds bw Hbw) as (Eb & HEb & Rb).
  destruct (rounds_normal _ _ _ Rm) as (mm & em & Nm & Hem & _).
  destruct (rounds_normal _ _ _ Rb) as (mw & ew & Nw & Hew & _).
  destruct float_100 as [N100 V100].
  destruct (fdiv_rounds _ _ _ _ _ _ N100 Nm ltac:(lia) ltac:(lia)) as (Eq & HEq & Rq).
  rewrite V100 in Rq.
  destruct (rounds_normal _ _ _ Rq) as (mq & eq & Nq & Heq & _).
  destruct (fmul_rounds _ _ _ _ _ _ Nq Nw ltac:(lia) ltac:(lia)) as (Ep & HEp & Rp).
  exists Em, Eq, Eb, Ep. repeat split; assumption.
Qed.

Lemma Rabs_le_inv (x a : R) : (Rabs x <= a)%R -> (- a <= x <= a)%R.
Proof. unfold Rabs. destruct (Rcase_abs x); lra. Qed.

(** The error analysis, on real numbers: [a], [q], [b], [p] stand for the
    four rounded values. *)
Lemma percent_error_analysis (m w a q b p : R) :
  (1 <= m)%R -> (0 < w <= m)%R ->
  (Rabs (a - m) <= m / 16777216)%R ->
  (Rabs (q - 100 / a) <= 100 / a / 16777216)%R ->
  (Rabs (b - w) <= w / 16777216)%R ->
  (Rabs (p - q * b) <= q * b / 16777216)%R ->
  (Rabs (p - 100 * w / m) <= 1 / 20000)%R.
Proof.
  intros Hm Hw Ha Hq Hb Hp.
  apply Rabs_le_inv in Ha, Hb.
  assert (Ha0 : (0 < a)%R) by lra.
  set (c := (100 / a)%R) in *.
  assert (Hc : (c * a = 100)%R) by (unfold c; field; lra).
  set (y0 := (100 / m)%R).
  assert (Hy0 : (y0 * m = 100)%R) by (unfold y0; field; lra).
  replace (100 * w / m)%R with (y0 * w)%R by (unfold y0; field; lra).
  clearbody c y0.
  assert (Hc0 : (0 < c)%R) by nra.
  assert (Hy00 : (0 < y0)%R) by nra.
  apply Rabs_le_inv in Hq.
  assert (Hc1 : (c <= y0 * (1 + 2 / 16777216))%R).
  { apply Rmult_le_reg_r with a; [exact Ha0 |]. rewrite Hc.
    apply Rle_trans with (y0 * (1 + 2 / 16777216) * (m * (1 - 1 / 16777216)))%R.
    - replace (y0 * (1 + 2 / 16777216) * (m * (1 - 1 / 16777216)))%R
        with (y0 * m * ((1 + 2 / 16777216) * (1 - 1 / 16777216)))%R by ring.
      rewrite Hy0. lra.
    - apply Rmult_le_compat_l; [nra | lra]. }
  assert (Hc2 : (y0 * (1 - 1 / 16777216) <= c)%R).
  { apply Rmult_le_reg_r with a; [exact Ha0 |]. rewrite Hc.
    apply Rle_trans with (y0 * (1 - 1 / 16777216) * (m * (1 + 1 / 16777216)))%R.
    - apply Rmult_le_compat_l; [nra | lra].
    - replace (y0 * (1 - 1 / 16777216) * (m * (1 + 1 / 16777216)))%R
        with (y0 * m * ((1 - 1 / 16777216) * (1 + 1 / 16777216)))%R by ring.
      rewrite Hy0. lra. }
  assert (Hq0 : (0 < q)%R) by nra.
  assert (Hq1 : (q <= y0 * (1 + 4 / 16777216))%R) by nra.
  assert (Hq2 : (y0 * (1 - 3 / 16777216) <= q)%R) by nra.
  assert (Hb0 : (0 < b)%R) by nra.
  assert (Hyw : (0 < y0 * w <= 100)%R) by nra.
  assert (Hqb1 : (q * b <= y0 * w * (1 + 6 / 16777216))%R).
  { apply Rle_trans with (y0 * (1 + 4 / 16777216) * (w * (1 + 1 / 16777216)))%R.
    - apply Rmult_le_compat; lra.
    - replace (y0 * (1 + 4 / 16777216) * (w * (1 + 1 / 16777216)))%R
        with (y0 * w * ((1 + 4 / 16777216) * (1 + 1 / 16777216)))%R by ring.
      apply Rmult_le_compat_l; lra. }
  assert (Hqb2 : (y0 * w * (1 - 5 / 16777216) <= q * b)%R).
  { apply Rle_trans with (y0 * (1 - 3 / 16777216) * (w * (1 - 1 / 16777216)))%R.
    - replace (y0 * (1 - 3 / 16777216) * (w * (1 - 1 / 16777216)))%R
        with (y0 * w * ((1 - 3 / 16777216) * (1 - 1 / 16777216)))%R by ring.
      apply Rmult_le_compat_l; lra.
    - apply Rmult_le_compat; nra. }
  apply Rabs_le_inv in Hp.
  set (z := (q * b)%R) in *. set (y := (y0 * w)%R) in *. clearbody z y.
  apply Rabs_le. split; nra.
Qed.

Lemma product_close (mb bw : Z) : 0 < mb < 2 ^ 64 -> 0 < bw <= mb ->
  (Rabs (F2R (product mb bw) - 100 * IZR bw / IZR mb) <= 1 / 20000)%R.
Proof.
  intros Hmb Hbw.
  destruct (percent_steps mb bw Hmb ltac:(lia)) as (Em & Eq & Eb & Ep & Rm & Rq & Rb & Rp).
  apply percent_error_analysis
    with (a := F2R (cxx.float_of_Z mb)) (q := F2R (quotient mb)) (b := F2R (cxx.float_of_Z bw)).
  - apply IZR_le. lia.
  - split; [apply IZR_lt | apply IZR_le]; lia.
  - exact (rounds_error _ _ _ Rm).
  - exact (rounds_error _ _ _ Rq).
  - exact (rounds_error _ _ _ Rb).
  - exact (rounds_error _ _ _ Rp).
Qed.



Lemma product_zero (mb : Z) : 0 < mb < 2 ^ 64 -> product mb 0 = S754_zero false.
Proof.
  intros Hmb.
  destruct (percent_steps mb 1 Hmb ltac:(lia)) as (_ & Eq & _ & _ & _ & Rq & _ & _).
  destruct (rounds_normal _ _ _ Rq) as (m & e & [Hq _] & _).
  unfold product. rewrite Hq. reflexivity.
Qed.

(** What [percent] truncates, for [0 < w <= m]. *)
Lemma product_trunc (mb bw : Z) : 0 < mb < 2 ^ 64 -> 0 < bw <= mb ->
  exists t, cxx.trunc (product mb bw) = Some t
            /\ 0 <= t <= 100
            /\ 100 * bw / mb - 1 <= t <= 100 * bw / mb + 1
            /\ (IZR t <= F2R (product mb bw) < IZR t + 1)%R.
Proof.
  intros Hmb Hbw.
  pose proof (product_close mb bw Hmb Hbw) as Hclose.
  destruct (percent_steps mb bw Hmb ltac:(lia)) as (_ & _ & _ & Ep & _ & _ & _ & Rp).
  destruct (rounds_normal _ _ _ Rp) as (m & e & Np & _).
  destruct (trunc_normal _ m e Np) as (t & Ht & Ht0 & Hfloor).
  exists t. split; [exact Ht |].
  apply Rabs_le_inv in Hclose.
  set (fl := 100 * bw / mb).
  pose proof (Z.div_mod (100 * bw) mb ltac:(lia)) as Hdm. fold fl in Hdm.
  pose proof (Z.mod_pos_bound (100 * bw) mb ltac:(lia)) as Hmod.
  assert (Hmr : (0 < IZR mb)%R) by (apply IZR_lt; lia).
  assert (Hy1 : (IZR fl <= 100 * IZR bw / IZR mb)%R).
  { apply Rmult_le_reg_r with (IZR mb); [exact Hmr |].
    replace (100 * IZR bw / IZR mb * IZR mb)%R with (IZR (100 * bw))
      by (rewrite mult_IZR; field; lra).
    rewrite <- mult_IZR. apply IZR_le. lia. }
  assert (Hy2 : (100 * IZR bw / IZR mb < IZR fl + 1)%R).
  { apply Rmult_lt_reg_r with (IZR mb); [exact Hmr |].
    replace (100 * IZR bw / IZR mb * IZR mb)%R with (IZR (100 * bw))
      by (rewrite mult_IZR; field; lra).
    rewrite <- (plus_IZR fl 1), <- mult_IZR. apply IZR_lt. lia. }
  assert (Hy3 : (100 * IZR bw / IZR mb <= 100)%R).
  { apply Rmult_le_reg_r with (IZR mb); [exact Hmr |].
    replace (100 * IZR bw / IZR mb * IZR mb)%R with (100 * IZR bw)%R by (field; lra).
    apply Rmult_le_compat_l; [lra | apply IZR_le; lia]. }
  set (y := (100 * IZR bw / IZR mb)%R) in *. clearbody y.
  set (pv := F2R (product mb bw)) in *. clearbody pv.
  assert (H1 : t < 101) by (apply lt_IZR; lra).
  assert (H2 : t < fl + 2) by (apply lt_IZR; rewrite plus_IZR; lra).
  assert (H3 : fl - 2 < t) by (apply lt_IZR; rewrite minus_IZR; lra).
  repeat split; try lia; lra.
Qed.


(** ** The percentage *)

Lemma percent_product (p : Progress) :
  percent p = cxx.uint8_of_float (product (mappedBlocks p) (blocksWritten p)).
Proof. reflexivity. Qed.

(** For [0 <= blocksWritten <= mappedBlocks], [percent] is defined, at most
    100, and within one of the exact quotient. *)
Lemma percent_defined (p : Progress) :
  0 < mappedBlocks p <= SIZE_MAX -> 0 <= blocksWritten p <= mappedBlocks p ->
  exists t, percent p = Ok t
            /\ cxx.trunc (product (mappedBlocks p) (blocksWritten p)) = Some t
            /\ 0 <= t <= 100
            /\ 100 * blocksWritten p / mappedBlocks p - 1 <= t
               <= 100 * blocksWritten p / mappedBlocks p + 1.
Proof.
  intros Hm Hw. rewrite percent_product. unfold cxx.uint8_of_float.
  destruct p as [mb bw]. cbn [mappedBlocks blocksWritten] in *.
  assert (Hmb : 0 < mb < 2 ^ 64) by (unfold SIZE_MAX in Hm; lia).
  destruct (Z.eq_dec bw 0) as [-> | Hpos].
  - rewrite (product_zero mb Hmb). exists 0. cbn. rewrite Z.div_0_l by lia.
    repeat split; lia.
  - destruct (product_trunc mb bw Hmb ltac:(lia)) as (t & Ht & Ht100 & Hnear & _).
    exists t. rewrite Ht.
    destruct (Z.leb_spec 0 t), (Z.leb_spec t 255); try lia. cbn [andb].
    repeat split; lia.
Qed.



(** C5 as stated fails: in single precision [100.0f / 97 * 97] is just below
    100 and [100.0f / 115 * 69] just below 60, so [percent] gives 99 and 59
    where the exact quotients are 100 and 60; and with [2^25] mapped blocks
    [(float)(2^25 - 1)] is [2^25], so [percent] gives 100 where the exact
    quotient is 99. *)
Lemma percent_differs_from_exact_quotient :
  percent {| mappedBlocks := 97; blocksWritten := 97 |} = Ok 99
  /\ 100 * 97 / 97 = 100
  /\ percent {| mappedBlocks := 115; blocksWritten := 69 |} = Ok 59
  /\ 100 * 69 / 115 = 60
  /\ percent {| mappedBlocks := 2 ^ 25; blocksWritten := 2 ^ 25 - 1 |} = Ok 100
  /\ 100 * (2 ^ 25 - 1) / 2 ^ 25 = 99.
Proof. repeat split; vm_compute; reflexivity. Qed.

(** C5, amended. For [mappedBlocks > 0] and [blocksWritten <= mappedBlocks],
    [percent()] is the single precision product
    [100.0f / (float)mappedBlocks * (float)blocksWritten] truncated; it is a
    value from 0 to 100, and it is [floor(100 * blocksWritten / mappedBlocks)]
    or one next to it. *)
Theorem percent_within_one_of_floor (p : Progress)
    (Hm : 0 < mappedBlocks p <= SIZE_MAX)
    (Hw : 0 <= blocksWritten p <= mappedBlocks p) :
  exists t : Z,
    percent p = Ok t
    /\ cxx.trunc (cxx.fmul (cxx.fdiv (cxx.float_of_Z 100)
                                     (cxx.float_of_Z (mappedBlocks p)))
                           (cxx.float_of_Z (blocksWritten p))) = Some t
    /\ 0 <= t <= 100
    /\ 100 * blocksWritten p / mappedBlocks p - 1 <= t
       <= 100 * blocksWritten p / mappedBlocks p + 1.
Proof. exact (percent_defined p Hm Hw). Qed.

Lemma percent_within_one_of_floor_witness :
  exists t : Z,
    percent {| mappedBlocks := 97; blocksWritten := 97 |} = Ok t
    /\ 0 <= t <= 100
    /\ 100 * 97 / 97 - 1 <= t <= 100 * 97 / 97 + 1.
Proof.
  destruct (percent_within_one_of_floor {| mappedBlocks := 97; blocksWritten := 97 |})
    as (t & Ht & _ & Hr & Hn).
  - vm_compute. split; [reflexivity | discriminate].
  - vm_compute. split; discriminate.
  - exists t. repeat split; solve [exact Ht | apply Hr | apply Hn].
Defined.

(** ** The callbacks of a copy *)





Lemma do_fseek_effect n st :
  calls (do_fseek n st) = calls st ++ [fseek n] /\ progress (do_fseek n st) = progress st.
Proof. split; reflexivity. Qed.

Lemma do_seekg_effect n st :
  calls (do_seekg n st) = calls st ++ [seekg n] /\ progress (do_seekg n st) = progress st.
Proof. split; reflexivity. Qed.

Section Callbacks.
Variable bmapFile : BmapFile.
Variable has_callback : bool.
Variable fuel : nat.
Hypothesis Hbs : 0 < blockSize bmapFile <= MAX_BUF_SIZE.

(** A range is fit when its count is not negative and the fuel covers its
    chunks. *)
Let fit (r : Range) : Prop :=
  0 <= blockCount r
  /\ (length (chunk_sizes (bufferMaxBlocks bmapFile) (blockCount r)) <= fuel)%nat.

(** What a range does when the percentage of the debug line that follows
    its [fsync] is defined. *)
Lemma copy_range_done (range : Range) (st : State) (t : Z) :
  let st1 := if offset range >? blocksWritten (progress st)
             then do_seekg (offset range - blocksWritten (progress st))
                    (do_fseek (offset range - blocksWritten (progress st)) st)
             else st in
  let o := transfer bmapFile has_callback fuel (blockCount range) st1 in
  status o = Finished -> percent (progress (final o)) = Ok t ->
  copy_range bmapFile has_callback fuel range st
  = {| final := log fsync (final o); status := Finished |}.
Proof.
  cbv zeta. intros Hs Hp. unfold copy_range. rewrite Hs.
  cbn [log progress]. rewrite Hp. reflexivity.
Qed.


End Callbacks.





(** * The rest of the header: formatting, paths, the parser on whole
      documents and the loop as a whole *)

(** ** [std::format] of the compatibility header *)

#[local] Arguments String.append : simpl nomatch.

Section Format.

Lemma string_app_assoc (a b c : string) : ((a ++ b) ++ c = a ++ (b ++ c))%string.
Proof. induction a as [| x a IH]; cbn [append String.length]; [reflexivity | f_equal; exact IH]. Qed.

Lemma string_app_nil_r (a : string) : (a ++ "" = a)%string.
Proof. induction a as [| x a IH]; cbn [append String.length]; [reflexivity | f_equal; exact IH]. Qed.

Lemma string_length_app (a b : string) :
  String.length (a ++ b) = (String.length a + String.length b)%nat.
Proof. induction a as [| x a IH]; cbn [append String.length]; [reflexivity | lia]. Qed.

(** What [break_at] returns: the text before the first [c], which holds no
    [c], and the text after it. *)
Lemma break_at_spec c s :
  cxx.contains c (fst (cxx.break_at c s)) = false
  /\ match snd (cxx.break_at c s) with
     | None => s = fst (cxx.break_at c s) /\ cxx.contains c s = false
     | Some tl => s = (fst (cxx.break_at c s) ++ String c tl)%string
                  /\ cxx.contains c s = true
     end.
Proof.
  induction s as [| x s IH]; cbn; [auto |].
  destruct (Ascii.eqb_spec x c) as [-> | Hne]; cbn; [auto |].
  destruct (cxx.break_at c s) as [hd tl]. cbn in *.
  destruct IH as [IH1 IH2]. split.
  - destruct (Ascii.eqb_spec x c); [contradiction | exact IH1].
  - destruct tl; destruct IH2 as [-> IH2]; auto.
Qed.

Lemma break_at_none c s : cxx.contains c s = false -> cxx.break_at c s = (s, None).
Proof.
  intros H. pose proof (break_at_spec c s) as [_ H2].
  destruct (cxx.break_at c s) as [hd [tl |]]; cbn in *.
  - destruct H2 as [_ H2]. congruence.
  - destruct H2 as [<- _]. reflexivity.
Qed.

Lemma break_at_first c a b :
  cxx.contains c a = false -> cxx.break_at c (a ++ String c b) = (a, Some b).
Proof.
  induction a as [| x a IH]; cbn [append cxx.contains cxx.break_at].
  - intros _. rewrite Ascii.eqb_refl. reflexivity.
  - destruct (Ascii.eqb x c); cbn [orb]; [discriminate |].
    intros H. rewrite (IH H). reflexivity.
Qed.

Lemma fill_plain x a s :
  cxx.contains "{" a = false ->
  fill x (a ++ s) = do r <- fill x s; Ok (a ++ r)%string.
Proof.
  induction a as [| c a IH]; cbn [append cxx.contains fill].
  - intros _. destruct (fill x s); reflexivity.
  - destruct (Ascii.eqb c "{"); cbn [orb]; [discriminate |].
    intros H. rewrite (IH H). destruct (fill x s); reflexivity.
Qed.

Lemma fill_no_brace x a : cxx.contains "{" a = false -> fill x a = Ok a.
Proof.
  intros H. rewrite <- (string_app_nil_r a) at 1. rewrite (fill_plain _ _ _ H).
  cbn. now rewrite string_app_nil_r.
Qed.

(** The loop of [format] computes [fill]; the length of the text is fuel
    enough. *)
Lemma format_loop_fill toAppend idx : forall (fuel : nat) (s acc : string),
  (String.length s <= fuel)%nat ->
  compat.format_loop fuel toAppend idx s acc
  = do r <- fill (default EmptyString (toAppend !! idx)) s; Ok (acc ++ r)%string.
Proof.
  induction fuel as [| fuel IH]; intros s acc Hlen;
    pose proof (break_at_spec "{" s) as [Hb1 Hb2];
    destruct (cxx.break_at "{" s) as [before [after |]] eqn:Hb; cbn [fst snd] in *.
  - destruct Hb2 as [-> _]. rewrite string_length_app in Hlen. cbn in Hlen. lia.
  - destruct Hb2 as [<- Hb2]. cbn. rewrite Hb. rewrite (fill_no_brace _ _ Hb2).
    reflexivity.
  - destruct Hb2 as [-> _]. cbn [compat.format_loop]. rewrite Hb.
    rewrite (fill_plain _ _ _ Hb1).
    destruct after as [| c after']; [reflexivity |].
    cbn [fill]. change (Ascii.eqb "{" "{") with true. cbv iota.
    destruct (Ascii.eqb c "}"); cbn [negb]; [| reflexivity].
    rewrite IH.
    + destruct (fill _ after'); cbn; [| reflexivity].
      now rewrite !string_app_assoc.
    + rewrite string_length_app in Hlen. cbn in Hlen. lia.
  - destruct Hb2 as [<- Hb2]. cbn [compat.format_loop]. rewrite Hb.
    rewrite (fill_no_brace _ _ Hb2). reflexivity.
Qed.

Lemma format_fill fmt arg args : compat.format fmt arg args = fill arg fmt.
Proof.
  unfold compat.format. destruct (cxx.contains "{" fmt) eqn:Hc; cbn [negb].
  - rewrite format_loop_fill by lia. cbn. destruct (fill arg fmt); reflexivity.
  - symmetry. now apply fill_no_brace.
Qed.

Lemma fill_join x (pieces : list string) :
  Forall (fun p => cxx.contains "{" p = false) pieces ->
  fill x (join "{}" pieces) = Ok (join x pieces).
Proof.
  induction 1 as [| p rest Hp Hrest IH]; [reflexivity |].
  cbn [join]. destruct rest as [| q rest]; [now apply fill_no_brace |].
  rewrite (fill_plain _ _ _ Hp). cbn [append fill].
  change (Ascii.eqb "{" "{") with true. change (Ascii.eqb "}" "}") with true. cbv iota.
  rewrite IH. reflexivity.
Qed.

Lemma fill_join_then x (pieces : list string) (s : string) :
  Forall (fun p => cxx.contains "{" p = false) pieces ->
  fill x (join "{}" pieces ++ s)
  = match pieces with
    | [] => fill x s
    | _ => do r <- fill x s; Ok (join x pieces ++ r)%string
    end.
Proof.
  induction 1 as [| p rest Hp Hrest IH]; [reflexivity |].
  cbn [join]. destruct rest as [| q rest]; [now apply fill_plain |].
  rewrite !string_app_assoc. rewrite (fill_plain _ _ _ Hp). cbn [append fill].
  change (Ascii.eqb "{" "{") with true. change (Ascii.eqb "}" "}") with true. cbv iota.
  rewrite IH. destruct (fill x s); cbn; [| reflexivity].
  now rewrite !string_app_assoc.
Qed.

Lemma fill_cases x : forall (n : nat) (s : string),
  (String.length s <= n)%nat ->
  (exists r, fill x s = Ok r) \/ fill x s = Err (Throw "Invalid format string").
Proof.
  induction n as [| n IH]; intros s Hlen.
  - destruct s; [left; eexists; reflexivity | cbn in Hlen; lia].
  - destruct s as [| c s]; [left; eexists; reflexivity |].
    cbn [fill]. cbn in Hlen. destruct (Ascii.eqb c "{").
    + destruct s as [| c' s']; [now right |].
      destruct (Ascii.eqb c' "}"); [| now right].
      destruct (IH s') as [[r Hr] | Hr]; [cbn in Hlen; lia | |]; rewrite Hr; cbn; eauto.
    + destruct (IH s) as [[r Hr] | Hr]; [lia | |]; rewrite Hr; cbn; eauto.
Qed.

End Format.

(** X1. [std::format] of the compatibility header puts its first argument in
    the place of every "{}" of the format string and never uses another
    argument: for pieces of text that hold no opening brace,
    [p0{}p1{}...pn] becomes [p0 arg p1 arg ... pn], whatever [args] is. *)
Theorem format_repeats_first_argument (pieces : list string) (arg : string)
    (args : list string)
    (Hpieces : Forall (fun p => cxx.contains "{" p = false) pieces) :
  compat.format (join "{}" pieces) arg args = Ok (join arg pieces).
Proof. rewrite format_fill. now apply fill_join. Qed.

Lemma format_repeats_first_argument_witness :
  compat.format "copied {} of {} blocks" "3" ["7"] = Ok "copied 3 of 3 blocks".
Proof.
  refine (format_repeats_first_argument ["copied "; " of "; " blocks"] "3" ["7"] _).
  repeat constructor.
Defined.

(** X2. An opening brace that is not followed at once by a closing one makes
    [format] throw "Invalid format string", after any number of well-formed
    placeholders: "{0}", "{:x}" and a brace at the end are all refused. *)
Theorem format_refuses_other_braces (pieces : list string) (after arg : string)
    (args : list string)
    (Hpieces : Forall (fun p => cxx.contains "{" p = false) pieces)
    (Hafter : not_first "}" after) :
  compat.format (join "{}" pieces ++ String "{" after) arg args
  = Err (Throw "Invalid format string").
Proof.
  rewrite format_fill, (fill_join_then _ _ _ Hpieces).
  assert (H : fill arg (String "{" after) = Err (Throw "Invalid format string")).
  { cbn [fill]. change (Ascii.eqb "{" "{") with true. cbv iota.
    destruct after as [| c after]; [reflexivity |].
    cbn in Hafter. destruct (Ascii.eqb_spec c "}"); [contradiction | reflexivity]. }
  rewrite H. destruct pieces; reflexivity.
Qed.

Lemma format_refuses_other_braces_witness :
  compat.format "block {} at {0}" "3" [] = Err (Throw "Invalid format string").
Proof.
  refine (format_refuses_other_braces ["block "; " at "] "0}" "3" [] _ _).
  - repeat constructor.
  - cbn. discriminate.
Defined.

(** X3. [format] always ends, and in one of two ways: with a string, or with
    the exception "Invalid format string"; the bound on the turns of its
    loop is never reached. *)
Theorem format_returns_or_throws (fmt arg : string) (args : list string) :
  (exists s, compat.format fmt arg args = Ok s)
  \/ compat.format fmt arg args = Err (Throw "Invalid format string").
Proof. rewrite format_fill. apply (fill_cases arg (String.length fmt)). lia. Qed.

(** ** The checks on the two paths *)

Section Suffix.

Lemma ends_with_spec (s suffix : string) :
  cxx.ends_with s suffix = true <-> exists stem, s = (stem ++ suffix)%string.
Proof.
  induction s as [| c s IH]; cbn [cxx.ends_with].
  - rewrite orb_false_r. split.
    + intros H%String.eqb_eq. exists EmptyString. exact H.
    + intros [[| c stem] H]; cbn in H; [| discriminate].
      subst. apply String.eqb_refl.
  - rewrite orb_true_iff, IH. split.
    + intros [H%String.eqb_eq | [stem ->]].
      * exists EmptyString. exact H.
      * exists (String c stem). reflexivity.
    + intros [[| c' stem] H]; cbn in H.
      * left. subst. apply String.eqb_refl.
      * right. injection H as <- ->. eauto.
Qed.

Lemma list_ascii_app (a b : string) :
  list_ascii_of_string (a ++ b)
  = list_ascii_of_string a ++ list_ascii_of_string b.
Proof. induction a as [| c a IH]; cbn; [reflexivity | now rewrite IH]. Qed.

(** No text ends both in ".wic" and in "wic.gz". *)
Lemma suffixes_apart (s : string) :
  cxx.ends_with s ".wic" = true -> cxx.ends_with s "wic.gz" = false.
Proof.
  intros [a ->]%ends_with_spec.
  destruct (cxx.ends_with (a ++ ".wic") "wic.gz") eqn:E; [| reflexivity].
  apply ends_with_spec in E as [b E].
  apply (f_equal list_ascii_of_string) in E. rewrite !list_ascii_app in E.
  apply (f_equal (@last ascii)) in E. cbn [list_ascii_of_string] in E.
  change (list_ascii_of_string a ++ ["."; "w"; "i"; "c"]%char)
    with (list_ascii_of_string a ++ ["."; "w"; "i"]%char ++ ["c"%char]) in E.
  change (list_ascii_of_string b ++ ["w"; "i"; "c"; "."; "g"; "z"]%char)
    with (list_ascii_of_string b ++ ["w"; "i"; "c"; "."; "g"]%char ++ ["z"%char]) in E.
  rewrite !app_assoc, !last_snoc in E. discriminate.
Qed.

Lemma check_paths_ok (file_exists : string -> bool) (stem targetDisk : string) :
  file_exists (stem ++ ".wic")%string = true -> file_exists targetDisk = true ->
  check_paths file_exists (stem ++ ".wic") targetDisk = Ok tt.
Proof.
  intros Hwic Htarget. unfold check_paths.
  assert (H : cxx.ends_with (stem ++ ".wic") ".wic" = true)
    by (apply ends_with_spec; eauto).
  rewrite H, (suffixes_apart _ H), Hwic, Htarget. reflexivity.
Qed.

End Suffix.

(** X4. [copy] lets a pair of paths through its checks exactly when the image
    path ends in ".wic" and both paths exist; no other suffix passes, and
    the order of the two suffix tests does not matter because no path ends
    in both. *)
Theorem check_paths_accepts_iff (file_exists : string -> bool)
    (wicPath targetDisk : string) :
  check_paths file_exists wicPath targetDisk = Ok tt
  <-> (exists stem, wicPath = (stem ++ ".wic")%string)
      /\ file_exists wicPath = true /\ file_exists targetDisk = true.
Proof.
  rewrite <- ends_with_spec. unfold check_paths.
  destruct (cxx.ends_with wicPath ".wic") eqn:Hwic; cbn [negb andb].
  - rewrite (suffixes_apart _ Hwic).
    destruct (file_exists wicPath), (file_exists targetDisk); cbn [negb];
      split; try discriminate; try tauto; intros (_ & ? & ?); discriminate.
  - destruct (cxx.ends_with wicPath "wic.gz"); cbn [negb];
      split; try discriminate; intros (? & _); discriminate.
Qed.

(** X5. A path that ends in "wic.gz" is refused with "Compressed wic files are
    currently not supported :(" before the file system is asked anything:
    the answer is the same whichever files exist or can be opened. *)
Theorem copy_paths_refuses_compressed :
  forall (tn : string) (RootElement : list ascii -> ElemPtr)
         (file_exists : string -> bool) (file_text : string -> list ascii)
         (file_bytes : string -> option (list Z)) (fopen_ok : string -> bool)
         (parent_path : string -> string) (path_append : string -> string -> string)
         (stem targetDisk : string) (has_callback : bool) (fuel : nat),
    copy_paths tn RootElement file_exists file_text file_bytes fopen_ok
      parent_path path_append (stem ++ "wic.gz")%string targetDisk has_callback fuel
    = Err (Throw "Compressed wic files are currently not supported :(").
Proof.
  intros. unfold copy_paths, check_paths.
  assert (Hgz : cxx.ends_with (stem ++ "wic.gz")%string "wic.gz" = true)
    by (apply ends_with_spec; eauto).
  rewrite Hgz, andb_false_r. reflexivity.
Qed.

(** X6. The descriptor is looked for under the parent directory of the image,
    by the whole image path with ".bmap" added to it; when no file is there
    [copy] throws "File not found! ..." with that path, before the target
    is opened for writing. *)
Theorem copy_paths_descriptor_path
    (tn : string) (RootElement : list ascii -> ElemPtr)
    (file_exists : string -> bool) (file_text : string -> list ascii)
    (file_bytes : string -> option (list Z)) (fopen_ok : string -> bool)
    (parent_path : string -> string) (path_append : string -> string -> string)
    (stem targetDisk : string) (has_callback : bool) (fuel : nat)
    (Hwic : file_exists (stem ++ ".wic")%string = true)
    (Htarget : file_exists targetDisk = true)
    (Hbmap : file_exists (path_append (parent_path (stem ++ ".wic")%string)
                            (stem ++ ".wic.bmap")%string) = false) :
  copy_paths tn RootElement file_exists file_text file_bytes fopen_ok
    parent_path path_append (stem ++ ".wic")%string targetDisk has_callback fuel
  = Err (Throw ("File not found! Path "
                ++ path_append (parent_path (stem ++ ".wic")) (stem ++ ".wic.bmap")
                ++ " does not exist.")%string).
Proof.
  unfold copy_paths.
  assert (Hok : check_paths file_exists (stem ++ ".wic")%string targetDisk = Ok tt)
    by (apply check_paths_ok; eauto).
  rewrite Hok. cbn [rbind]. unfold from_xml.
  rewrite string_app_assoc. cbn [append] in *. rewrite Hbmap. reflexivity.
Qed.

Lemma copy_paths_descriptor_path_witness :
  copy_paths "m" (fun _ => sample_root)
    (fun p => (String.eqb p "a.wic" || String.eqb p "/dev/sdx")%bool)
    (fun _ => []) (fun _ => None) (fun _ => true)
    (fun _ => EmptyString) (fun _ name => name) "a.wic" "/dev/sdx" false 1
  = Err (Throw "File not found! Path a.wic.bmap does not exist.").
Proof.
  refine (copy_paths_descriptor_path "m" (fun _ => sample_root)
            (fun p => (String.eqb p "a.wic" || String.eqb p "/dev/sdx")%bool)
            (fun _ => []) (fun _ => None) (fun _ => true)
            (fun _ => EmptyString) (fun _ name => name) "a" "/dev/sdx" false 1 _ _ _);
    reflexivity.
Defined.

(** ** Numerals in the texts of elements *)

Section Texts.

Lemma space_not_minus c : cxx.is_space c = true -> Ascii.eqb c "-" = false.
Proof.
  destruct c as [[] [] [] [] [] [] [] []]; cbn; intros H;
    first [reflexivity | discriminate H].
Qed.

Lemma spaces_no_minus ws : spaces ws = true -> cxx.contains "-" ws = false.
Proof.
  induction ws as [| c ws IH]; cbn [spaces cxx.contains]; [reflexivity |].
  intros [Hc Hws]%andb_true_iff. now rewrite (space_not_minus c Hc), IH.
Qed.

Lemma skip_ws_spaces ws s : spaces ws = true -> cxx.skip_ws (ws ++ s) = cxx.skip_ws s.
Proof.
  induction ws as [| c ws IH]; cbn [spaces append cxx.skip_ws]; [reflexivity |].
  intros [Hc Hws]%andb_true_iff. rewrite Hc. auto.
Qed.

Lemma read_digits_stops post acc : no_digit_first post -> cxx.read_digits post acc = acc.
Proof. destruct post as [| c post]; cbn; [reflexivity |]. now intros ->. Qed.

Lemma read_digits_leading ds post : Forall (fun d => 0 <= d <= 9) ds ->
  no_digit_first post ->
  forall acc, cxx.read_digits (numeral ds ++ post) (Some acc)
              = Some (fold_left (fun acc d => 10 * acc + d) ds acc).
Proof.
  intros Hds Hpost. induction Hds as [| d ds Hd _ IH]; intros acc.
  - cbn [numeral append fold_left]. now apply read_digits_stops.
  - cbn [numeral append cxx.read_digits fold_left].
    rewrite (digit_of_digit_char d Hd). cbn [default]. apply IH.
Qed.

(** The extraction reads the numeral a text starts with, after white space
    and up to the first character that is not a digit. *)
Lemma extract_leading_numeral ws ds post :
  spaces ws = true -> digits ds -> value_of ds <= SIZE_MAX -> no_digit_first post ->
  cxx.extract_size_t (ws ++ numeral ds ++ post)
  = {| cxx.stored := Some (value_of ds); cxx.failbit := false |}.
Proof.
  intros Hws [Hne Hds] Hfit Hpost. unfold cxx.extract_size_t.
  rewrite (skip_ws_spaces _ _ Hws).
  destruct Hds as [| d ds Hd Hds]; [congruence |].
  cbn [numeral append cxx.skip_ws].
  rewrite (digit_char_not_space d Hd), (digit_char_not_minus d Hd),
    (digit_char_not_plus d Hd).
  cbn [orb cxx.read_digits]. rewrite (digit_of_digit_char d Hd). cbn [default].
  rewrite (read_digits_leading ds post Hds Hpost).
  change (fold_left (fun acc d => 10 * acc + d) ds (10 * 0 + d))
    with (value_of (d :: ds)).
  destruct (Z.gtb_spec (value_of (d :: ds)) SIZE_MAX); [lia | reflexivity].
Qed.

Lemma read_digits_none s : has_digit s = false -> cxx.read_digits s None = None.
Proof.
  destruct s as [| c s]; cbn [has_digit cxx.read_digits]; [reflexivity |].
  intros [Hc _]%orb_false_iff. apply bool_decide_eq_false in Hc.
  destruct (cxx.digit_of c); [| reflexivity]. exfalso. apply Hc. discriminate.
Qed.

Lemma has_digit_skip_ws s : has_digit s = false -> has_digit (cxx.skip_ws s) = false.
Proof.
  induction s as [| c s IH]; cbn [cxx.skip_ws]; [reflexivity |].
  intros H. destruct (cxx.is_space c); [| exact H].
  apply IH. cbn [has_digit] in H. now apply orb_false_iff in H.
Qed.

(** Without a digit in the text the extraction fails. *)
Lemma extract_no_digit s : has_digit s = false ->
  cxx.failbit (cxx.extract_size_t s) = true
  /\ (cxx.stored (cxx.extract_size_t s) = None
      \/ cxx.stored (cxx.extract_size_t s) = Some 0).
Proof.
  intros H%has_digit_skip_ws. unfold cxx.extract_size_t.
  destruct (cxx.skip_ws s) as [| c rest]; [cbn; auto |].
  assert (Hrest : has_digit rest = false)
    by (cbn [has_digit] in H; now apply orb_false_iff in H).
  destruct (Ascii.eqb c "-" || Ascii.eqb c "+")%bool;
    rewrite read_digits_none by assumption; cbn; auto.
Qed.

(** A numeral too large for [size_t] fails the extraction, which stores
    the largest [size_t]. *)
Lemma extract_overflow ds : digits ds -> SIZE_MAX < value_of ds ->
  cxx.extract_size_t (numeral ds)
  = {| cxx.stored := Some SIZE_MAX; cxx.failbit := true |}.
Proof.
  intros Hds Hbig. pose proof (read_digits_numeral_start ds Hds) as Hread.
  destruct Hds as [Hne Hall]. destruct Hall as [| d ds Hd Hall]; [congruence |].
  unfold cxx.extract_size_t. cbn [numeral cxx.skip_ws].
  rewrite (digit_char_not_space d Hd), (digit_char_not_minus d Hd),
    (digit_char_not_plus d Hd).
  cbn [orb]. cbn [numeral] in Hread. rewrite Hread.
  destruct (Z.gtb_spec (value_of (d :: ds)) SIZE_MAX); [reflexivity | lia].
Qed.

Lemma GetText_with_text e t : GetText (with_text e t) = t.
Proof. destruct e as [[n t0 a k] sibs]. reflexivity. Qed.

Lemma Attribute_with_text e t name : Attribute (with_text e t) name = Attribute e name.
Proof. destruct e as [[n t0 a k] sibs]. reflexivity. Qed.

Lemma break_at_prefix c a s : cxx.contains c a = false ->
  cxx.break_at c (a ++ s)
  = ((a ++ fst (cxx.break_at c s))%string, snd (cxx.break_at c s)).
Proof.
  induction a as [| x a IH]; cbn [append cxx.contains cxx.break_at].
  - intros _. now destruct (cxx.break_at c s).
  - destruct (Ascii.eqb x c); cbn [orb]; [discriminate |].
    intros H. rewrite (IH H). reflexivity.
Qed.

(** A text with a separator in it splits into two pieces at least: what is
    before the first separator, and what follows up to the next one. *)
Lemma split_two c first tl : cxx.contains c first = false ->
  exists rest, cxx.split c (first ++ String c tl)
               = first :: fst (cxx.break_at c tl) :: rest.
Proof.
  intros Hfirst. unfold cxx.split.
  destruct (first ++ String c tl)%string as [| x s] eqn:E.
  { destruct first; discriminate E. }
  rewrite <- E. cbn [cxx.split_pieces]. rewrite (break_at_first _ _ _ Hfirst).
  rewrite E. cbn [String.length cxx.split_pieces].
  destruct (cxx.break_at c tl) as [second [tl' |]]; cbn [fst]; eauto.
Qed.

Lemma no_digit_first_break c s : no_digit_first s ->
  no_digit_first (fst (cxx.break_at c s)).
Proof.
  destruct s as [| x s]; cbn [cxx.break_at]; [auto |].
  destruct (Ascii.eqb x c); cbn; [auto |].
  now destruct (cxx.break_at c s).
Qed.

Lemma skip_ws_blank s : cxx.skip_ws s = EmptyString <-> spaces s = true.
Proof.
  induction s as [| c s IH]; cbn [cxx.skip_ws spaces]; [tauto |].
  destruct (cxx.is_space c); cbn [andb]; [exact IH |].
  split; discriminate.
Qed.

(** [to_sizeT] has a value exactly on a text that is not blank. *)
Lemma to_sizeT_defined s :
  if spaces s then to_sizeT s = Err (Undefined "read of an uninitialised size_t")
  else exists out, to_sizeT s = Ok out.
Proof.
  unfold to_sizeT, cxx.extract_size_t.
  destruct (spaces s) eqn:Hs.
  - apply skip_ws_blank in Hs. rewrite Hs. reflexivity.
  - destruct (cxx.skip_ws s) as [| c rest] eqn:Hskip.
    + apply skip_ws_blank in Hskip. congruence.
    + destruct (cxx.read_digits _ None) as [v |]; [| eauto].
      destruct (v >? SIZE_MAX); eauto.
Qed.

(** The first two pieces of a text with a hyphen are its operands. *)
Lemma split_operands text : cxx.contains "-" text = true ->
  exists first second rest,
    operands text = [first; second]
    /\ cxx.split "-" text = first :: second :: rest.
Proof.
  intros Hc. unfold operands.
  pose proof (break_at_spec "-" text) as [Hb1 Hb2].
  destruct (cxx.break_at "-" text) as [first [tl |]]; cbn [fst snd] in *.
  - destruct Hb2 as [-> _]. destruct (split_two "-" first tl Hb1) as [rest Hsplit].
    eauto 6.
  - destruct Hb2 as [_ Hf]. congruence.
Qed.

Lemma operands_plain text : cxx.contains "-" text = false -> operands text = [text].
Proof. intros Hc. unfold operands. now rewrite (break_at_none _ _ Hc). Qed.

End Texts.

(** X7. [xml::value<size_t>] reads the numeral its element's text starts with:
    white space before it is skipped, and whatever follows the last digit
    ("4096 bytes", "12abc", a line break) is left unread and does not make
    the conversion fail. *)
Theorem value_size_t_reads_leading_numeral (tn : string) (e : ElemRef)
    (ws post : string) (ds : list Z)
    (Hws : spaces ws = true) (Hds : digits ds) (Hfit : value_of ds <= SIZE_MAX)
    (Hpost : no_digit_first post) :
  xml.value_size_t tn (Some (with_text e (Some (ws ++ numeral ds ++ post)%string)))
  = Ok (value_of ds).
Proof.
  unfold xml.value_size_t. rewrite GetText_with_text. cbn [std_string rbind].
  rewrite extract_leading_numeral by assumption. reflexivity.
Qed.

Lemma value_size_t_reads_leading_numeral_witness :
  xml.value_size_t "m" (Some (with_text (range_elem None None) (Some " 4096 bytes")))
  = Ok 4096.
Proof.
  refine (value_size_t_reads_leading_numeral "m" (range_elem None None)
            " " " bytes" [4; 0; 9; 6] _ _ _ _).
  - reflexivity.
  - split; [discriminate | repeat constructor; lia].
  - vm_compute. discriminate.
  - reflexivity.
Defined.

(** X8. [xml::value<size_t>] throws "Failed to convert element to type ..." on
    every text that holds no digit (the empty text, white space, words, a
    lone sign), and on every numeral above the largest [size_t]. *)
Theorem value_size_t_rejects (tn : string) (e : ElemRef) (text : string)
    (Htext : has_digit text = false
             \/ exists ds, digits ds /\ SIZE_MAX < value_of ds /\ text = numeral ds) :
  xml.value_size_t tn (Some (with_text e (Some text)))
  = Err (Throw ("Failed to convert element to type " ++ tn)%string).
Proof.
  unfold xml.value_size_t. rewrite GetText_with_text. cbn [std_string rbind].
  destruct Htext as [H | (ds & Hds & Hbig & ->)].
  - destruct (extract_no_digit text H) as [-> _]. reflexivity.
  - rewrite extract_overflow by assumption. reflexivity.
Qed.

Lemma value_size_t_rejects_witness :
  xml.value_size_t "m" (Some (with_text (range_elem None None) (Some "four")))
  = Err (Throw "Failed to convert element to type m").
Proof.
  refine (value_size_t_rejects "m" (range_elem None None) "four" _).
  left. reflexivity.
Defined.

(** X9. [Range::parse] returns a [Range] exactly when the element is there,
    has a text and a [chksum] attribute, and no operand of the text (the
    whole text, or each side of the first hyphen) is empty or white space
    only, which would leave [out] unwritten. Nothing else in the text
    makes it fail, and the split of a text with a hyphen always has the
    second piece the code reads. *)
Theorem Range_parse_returns_iff (elem : ElemPtr) :
  (exists r, Range_parse elem = Ok r)
  <-> exists e text chk,
        elem = Some e /\ GetText e = Some text /\ Attribute e "chksum" = Some chk
        /\ Forall (fun s => spaces s = false) (operands text).
Proof.
  split.
  - intros [r Hr]. destruct elem as [e |]; [| discriminate].
    unfold Range_parse in Hr.
    destruct (GetText e) as [text |] eqn:Htext; [| discriminate].
    cbn [std_string rbind] in Hr.
    assert (Hops : Forall (fun s => spaces s = false) (operands text)).
    { destruct (cxx.contains "-" text) eqn:Hc; cbn [negb] in Hr.
      - destruct (split_operands text Hc) as (first & second & rest & -> & Hsplit).
        rewrite Hsplit in Hr.
        pose proof (to_sizeT_defined first) as H1.
        pose proof (to_sizeT_defined second) as H2.
        destruct (spaces first) eqn:E1; [rewrite H1 in Hr; discriminate Hr |].
        destruct H1 as [v1 H1]. rewrite H1 in Hr. cbn [rbind] in Hr.
        destruct (spaces second) eqn:E2; [rewrite H2 in Hr; discriminate Hr |].
        repeat constructor; assumption.
      - rewrite (operands_plain text Hc).
        pose proof (to_sizeT_defined text) as H1.
        destruct (spaces text) eqn:E1; [rewrite H1 in Hr; discriminate Hr |].
        repeat constructor; assumption. }
    destruct (Attribute e "chksum") as [chk |] eqn:Hchk;
      [exists e, text, chk; auto |].
    exfalso.
    destruct (if negb (cxx.contains "-" text) then _ else _); discriminate Hr.
  - intros (e & text & chk & -> & Htext & Hchk & Hops). unfold Range_parse.
    rewrite Htext, Hchk. cbn [std_string rbind].
    destruct (cxx.contains "-" text) eqn:Hc; cbn [negb].
    + destruct (split_operands text Hc) as (first & second & rest & E & ->).
      rewrite E in Hops. apply Forall_cons in Hops as [H1 Hops].
      apply Forall_cons in Hops as [H2 _].
      pose proof (to_sizeT_defined first) as D1. rewrite H1 in D1.
      pose proof (to_sizeT_defined second) as D2. rewrite H2 in D2.
      destruct D1 as [v1 ->]. destruct D2 as [v2 ->]. cbn. eauto.
    + rewrite (operands_plain text Hc) in Hops. apply Forall_cons in Hops as [H1 _].
      pose proof (to_sizeT_defined text) as D1. rewrite H1 in D1.
      destruct D1 as [v1 ->]. cbn. eauto.
Qed.

(** X10. [Range::parse] reads the numeral each side of the first hyphen starts
    with and nothing else: white space before a numeral, text after it, and
    everything from a second hyphen on ("0-9-20", " 3 - 5 ", "3kB-5kB") are
    passed over without a failure. *)
Theorem Range_parse_reads_leading_numerals (e : ElemRef) (chk : string)
    (ws1 post1 ws2 post2 : string) (a b : list Z)
    (Hchk : Attribute e "chksum" = Some chk)
    (Hws1 : spaces ws1 = true) (Hws2 : spaces ws2 = true)
    (Ha : digits a) (Hb : digits b)
    (Hafit : value_of a <= SIZE_MAX) (Hbfit : value_of b <= SIZE_MAX)
    (Hpost1 : no_digit_first post1) (Hpost2 : no_digit_first post2)
    (Hhyphen : cxx.contains "-" post1 = false) :
  Range_parse
    (Some (with_text e (Some ((ws1 ++ numeral a ++ post1) ++ "-"
                              ++ ws2 ++ numeral b ++ post2)%string)))
  = Ok {| offset := value_of a;
          blockCount := wrap64 (value_of b - value_of a + 1);
          checksum := chk |}.
Proof.
  rewrite (Range_parse_with_text _ _ _ Hchk).
  assert (Hfirst : cxx.contains "-" (ws1 ++ numeral a ++ post1) = false).
  { rewrite !contains_app, (spaces_no_minus _ Hws1),
      (contains_numeral a (proj2 Ha)), Hhyphen. reflexivity. }
  rewrite contains_app. cbn [append cxx.contains].
  change (Ascii.eqb "-" "-") with true. cbn [orb]. rewrite orb_true_r. cbn [negb].
  destruct (split_two "-" _ (ws2 ++ numeral b ++ post2) Hfirst) as [rest ->].
  assert (Hsecond : cxx.contains "-" (ws2 ++ numeral b) = false).
  { rewrite contains_app, (spaces_no_minus _ Hws2),
      (contains_numeral b (proj2 Hb)). reflexivity. }
  rewrite <- (string_app_assoc ws2 (numeral b) post2),
    (break_at_prefix _ _ _ Hsecond). cbn [fst].
  rewrite (string_app_assoc ws2 (numeral b)).
  unfold to_sizeT.
  rewrite !extract_leading_numeral
    by (try assumption; now apply no_digit_first_break).
  cbn [cxx.stored rbind]. unfold wrap64.
  rewrite Zplus_mod_idemp_l. reflexivity.
Qed.

Lemma Range_parse_reads_leading_numerals_witness :
  Range_parse (Some (with_text (range_elem None (Some "9eaf")) (Some " 3 - 5 -8")))
  = Ok {| offset := 3; blockCount := 3; checksum := "9eaf" |}.
Proof.
  refine (Range_parse_reads_leading_numerals (range_elem None (Some "9eaf"))
            "9eaf" " " " " " " " -8" [3] [5] _ _ _ _ _ _ _ _ _ _).
  - reflexivity.
  - reflexivity.
  - reflexivity.
  - split; [discriminate | repeat constructor; lia].
  - split; [discriminate | repeat constructor; lia].
  - vm_compute. discriminate.
  - vm_compute. discriminate.
  - reflexivity.
  - reflexivity.
  - reflexivity.
Defined.

(** X11. A text that is a numeral above the largest [size_t] is not refused
    by [Range::parse]: the offset of the range is the largest [size_t]. *)
Theorem Range_parse_saturates (e : ElemRef) (chk : string)
    (ds : list Z)
    (Hchk : Attribute e "chksum" = Some chk)
    (Hds : digits ds) (Hbig : SIZE_MAX < value_of ds) :
  Range_parse (Some (with_text e (Some (numeral ds))))
  = Ok {| offset := SIZE_MAX; blockCount := 1; checksum := chk |}.
Proof.
  rewrite (Range_parse_with_text _ _ _ Hchk).
  rewrite (contains_numeral ds (proj2 Hds)). cbn [negb].
  unfold to_sizeT. rewrite extract_overflow by assumption. reflexivity.
Qed.

Lemma Range_parse_saturates_witness :
  Range_parse
    (Some (with_text (range_elem None (Some "9eaf")) (Some "18446744073709551616")))
  = Ok {| offset := 18446744073709551615; blockCount := 1; checksum := "9eaf" |}.
Proof.
  refine (Range_parse_saturates (range_elem None (Some "9eaf")) "9eaf"
            [1; 8; 4; 4; 6; 7; 4; 4; 0; 7; 3; 7; 0; 9; 5; 5; 1; 6; 1; 6] _ _ _).
  - reflexivity.
  - split; [discriminate | repeat constructor; lia].
  - vm_compute. reflexivity.
Defined.

(** ** Paths into the element tree *)

Section Paths.

Lemma join_cons sep p q rest :
  join sep (p :: q :: rest) = (p ++ sep ++ join sep (q :: rest))%string.
Proof. reflexivity. Qed.

(** Splitting at [c] undoes joining with [c], given pieces without [c] and
    fuel for each of them. *)
Lemma split_pieces_join c (pieces : list string) :
  Forall (fun p => cxx.contains c p = false) pieces ->
  forall (p : string) (fuel : nat),
    cxx.contains c p = false -> (length pieces < fuel)%nat ->
    cxx.split_pieces fuel c (join (String c EmptyString) (p :: pieces)) = p :: pieces.
Proof.
  induction 1 as [| q rest Hq _ IH]; intros p fuel Hp Hfuel;
    (destruct fuel as [| fuel]; [cbn in Hfuel; lia |]).
  - cbn [join cxx.split_pieces]. now rewrite break_at_none.
  - rewrite join_cons. cbn [append cxx.split_pieces].
    rewrite (break_at_first _ _ _ Hp). f_equal. apply IH; [exact Hq |].
    cbn in Hfuel. lia.
Qed.

Lemma join_length sep p (pieces : list string) :
  (length pieces * String.length sep
   <= String.length (join sep (p :: pieces)))%nat.
Proof.
  revert p. induction pieces as [| q rest IH]; intros p; [apply Nat.le_0_l |].
  rewrite join_cons, !string_length_app. specialize (IH q).
  change (length (q :: rest)) with (S (length rest)). rewrite Nat.mul_succ_l.
  lia.
Qed.

Lemma split_join c (pieces : list string) :
  Forall (fun p => cxx.contains c p = false) pieces ->
  pieces <> [EmptyString] ->
  cxx.split c (join (String c EmptyString) pieces) = pieces.
Proof.
  intros Hall Hne. destruct Hall as [| p rest Hp Hrest]; [reflexivity |].
  unfold cxx.split.
  destruct (join (String c "") (p :: rest)) as [| x s] eqn:E.
  - destruct rest as [| q rest]; [cbn in E; congruence |].
    rewrite join_cons in E. destruct p; discriminate E.
  - rewrite <- E. apply split_pieces_join; [exact Hrest | exact Hp |].
    pose proof (join_length (String c "") p rest) as Hlen.
    change (String.length (String c "")) with 1%nat in Hlen. lia.
Qed.

End Paths.

(** X12. [valueFromSimpleXPath] follows the names that the slashes of the path
    separate, one child level for each name, and gives the element it
    arrives at to [value]; a path with a slash at its end asks for a child
    with the empty name, and the empty path is the root itself. *)
Theorem valueFromSimpleXPath_follows_names {T} (value : ElemPtr -> result T)
    (root : ElemPtr) (names : list string)
    (Hnames : Forall (fun n => cxx.contains "/" n = false) names)
    (Hne : names <> [EmptyString]) :
  xml.valueFromSimpleXPath value root (join "/" names)
  = do elem <- xml.descend root names; value elem.
Proof. unfold xml.valueFromSimpleXPath. now rewrite split_join. Qed.

Lemma valueFromSimpleXPath_follows_names_witness :
  xml.valueFromSimpleXPath xml.value_string
    (Some {| this := Element "bmap" None []
                       [Element "BlockMap" None []
                          [Element "Range" (Some "0-1") [] []]];
             siblings := [] |})
    "BlockMap/Range"
  = Ok "0-1".
Proof.
  refine (valueFromSimpleXPath_follows_names xml.value_string _ ["BlockMap"; "Range"] _ _).
  - repeat constructor.
  - discriminate.
Defined.

(** X13. When the root has no child with the first name of the path,
    [valueFromSimpleXPath] throws "Unable to evaluate XPath. No child found
    with name ..." with that name, whatever names follow it. *)
Theorem valueFromSimpleXPath_missing_child {T} (value : ElemPtr -> result T)
    (root : ElemRef) (name : string) (names : list string)
    (Hnames : Forall (fun n => cxx.contains "/" n = false) (name :: names))
    (Hne : name :: names <> [EmptyString])
    (Hchild : Forall (fun x => Name x <> name) (children (this root))) :
  xml.valueFromSimpleXPath value (Some root) (join "/" (name :: names))
  = Err (Throw ("Unable to evaluate XPath. No child found with name " ++ name)%string).
Proof.
  unfold xml.valueFromSimpleXPath. rewrite split_join by assumption.
  cbn [xml.descend]. unfold FirstChildElement.
  assert (H : first_named name (children (this root)) = None).
  { induction Hchild as [| x l Hx _ IH]; [reflexivity |].
    cbn [first_named]. destruct (String.eqb_spec (Name x) name); [contradiction | exact IH]. }
  rewrite H. reflexivity.
Qed.

Lemma valueFromSimpleXPath_missing_child_witness :
  xml.valueFromSimpleXPath xml.value_string
    (Some {| this := Element "bmap" None [] [Element "BlockMap" None [] []];
             siblings := [] |})
    "ImageSize"
  = Err (Throw "Unable to evaluate XPath. No child found with name ImageSize").
Proof.
  refine (valueFromSimpleXPath_missing_child xml.value_string _ "ImageSize" [] _ _ _).
  - repeat constructor.
  - discriminate.
  - repeat constructor. discriminate.
Defined.

(** ** The descriptor, from the document *)

Section Descriptor.
Variable typeid_name : string.
Variable RootElement : list ascii -> ElemPtr.

Lemma read_digits_nonneg s : forall acc v,
  match acc with Some a => 0 <= a | None => True end ->
  cxx.read_digits s acc = Some v -> 0 <= v.
Proof.
  induction s as [| c s IH]; intros acc v Hacc; cbn [cxx.read_digits].
  - intros ->. exact Hacc.
  - unfold cxx.digit_of.
    destruct ((48 <=? Z.of_nat (nat_of_ascii c)) && (Z.of_nat (nat_of_ascii c) <=? 57))%bool
      eqn:Hd.
    + apply IH. apply andb_true_iff in Hd as [Hd%Z.leb_le _].
      destruct acc; cbn [default] in *; unfold Datatypes.id; lia.
    + intros ->. exact Hacc.
Qed.

(** An extraction that leaves the stream good has stored a [size_t]. *)
Lemma extract_good text : cxx.failbit (cxx.extract_size_t text) = false ->
  exists v, cxx.extract_size_t text = {| cxx.stored := Some v; cxx.failbit := false |}
            /\ 0 <= v <= SIZE_MAX.
Proof.
  unfold cxx.extract_size_t. destruct (cxx.skip_ws text) as [| c rest]; [discriminate |].
  destruct (cxx.read_digits _ None) as [v |] eqn:Hread; [| discriminate].
  apply read_digits_nonneg in Hread; [| exact I].
  destruct (Z.gtb_spec v SIZE_MAX); [discriminate |]. intros _.
  eexists. split; [reflexivity |].
  destruct (Ascii.eqb c "-"); cbv zeta iota; [| lia].
  unfold wrap64, SIZE_MAX. pose proof (Z.mod_pos_bound (- v) (2 ^ 64)). lia.
Qed.

Lemma value_size_t_ok elem v : xml.value_size_t typeid_name elem = Ok v ->
  exists e text, elem = Some e /\ GetText e = Some text
    /\ cxx.extract_size_t text = {| cxx.stored := Some v; cxx.failbit := false |}
    /\ 0 <= v <= SIZE_MAX.
Proof.
  unfold xml.value_size_t. destruct elem as [e |]; [| discriminate].
  destruct (GetText e) as [text |] eqn:Htext; [| discriminate].
  cbn [std_string rbind].
  destruct (cxx.failbit (cxx.extract_size_t text)) eqn:Hfail; [discriminate |].
  destruct (extract_good text Hfail) as (w & Hw & Hrange). rewrite Hw. cbn.
  intros [= <-]. exists e, text. auto.
Qed.

Lemma size_at_ok root name v : cxx.split "/" name = [name] ->
  xml.valueFromSimpleXPath (xml.value_size_t typeid_name) root name = Ok v ->
  exists r, root = Some r /\ size_child r name v /\ 0 <= v <= SIZE_MAX.
Proof.
  unfold xml.valueFromSimpleXPath. intros ->. cbn [xml.descend].
  destruct root as [r |]; [| discriminate].
  destruct (FirstChildElement r name) as [c |] eqn:Hc; [| discriminate].
  cbn [rbind]. intros (e & text & [= <-] & Htext & Hx & Hrange)%value_size_t_ok.
  exists r. split; [reflexivity |]. split; [exists c, text; auto | exact Hrange].
Qed.

Lemma string_at_ok root name s : cxx.split "/" name = [name] ->
  xml.valueFromSimpleXPath xml.value_string root name = Ok s ->
  exists r, root = Some r /\ text_child r name s.
Proof.
  unfold xml.valueFromSimpleXPath. intros ->. cbn [xml.descend].
  destruct root as [r |]; [| discriminate].
  destruct (FirstChildElement r name) as [c |] eqn:Hc; [| discriminate].
  cbn [rbind xml.value_string]. destruct (GetText c) as [t |] eqn:Ht; [| discriminate].
  intros [= <-]. exists r. split; [reflexivity | exists c; auto].
Qed.

(** What a returned descriptor tells about the document. *)
Lemma from_xml_data_ok bytes f :
  from_xml_data typeid_name RootElement bytes = Ok f ->
  exists root, RootElement bytes = Some root
    /\ (size_child root "ImageSize" (imageSize f) /\ 0 <= imageSize f <= SIZE_MAX)
    /\ (size_child root "BlockSize" (blockSize f) /\ 0 <= blockSize f <= SIZE_MAX)
    /\ (size_child root "BlocksCount" (blocksCount f) /\ 0 <= blocksCount f <= SIZE_MAX)
    /\ (size_child root "MappedBlocksCount" (mappedBlocksCount f)
        /\ 0 <= mappedBlocksCount f <= SIZE_MAX)
    /\ text_child root "ChecksumType" (checksumType f)
    /\ text_child root "BmapFileChecksum" (bmapChecksum f)
    /\ match FirstChildElement root "BlockMap" with
       | None => blockMap f = []
       | Some blockMapElem =>
           match FirstChildElement blockMapElem "Range" with
           | None => blockMap f = []
           | Some rangeElem =>
               parse_ranges (this rangeElem) (siblings rangeElem)
               = Ok (blockMap f)
           end
       end.
Proof.
  unfold from_xml_data. destruct bytes as [| b bytes]; [discriminate |].
  set (root := RootElement (b :: bytes)).
  destruct (xml.valueFromSimpleXPath _ root "ImageSize") as [v1 |] eqn:H1; [| discriminate].
  destruct (xml.valueFromSimpleXPath _ root "BlockSize") as [v2 |] eqn:H2; [| discriminate].
  destruct (xml.valueFromSimpleXPath _ root "BlocksCount") as [v3 |] eqn:H3; [| discriminate].
  destruct (xml.valueFromSimpleXPath _ root "MappedBlocksCount") as [v4 |] eqn:H4;
    [| discriminate].
  destruct (xml.valueFromSimpleXPath _ root "ChecksumType") as [s1 |] eqn:H5;
    [| discriminate].
  destruct (xml.valueFromSimpleXPath _ root "BmapFileChecksum") as [s2 |] eqn:H6;
    [| discriminate].
  cbn [rbind].
  apply size_at_ok in H1 as (r & Hr & H1 & B1); [| reflexivity].
  apply size_at_ok in H2 as (r2 & Hr2 & H2 & B2); [| reflexivity].
  apply size_at_ok in H3 as (r3 & Hr3 & H3 & B3); [| reflexivity].
  apply size_at_ok in H4 as (r4 & Hr4 & H4 & B4); [| reflexivity].
  apply string_at_ok in H5 as (r5 & Hr5 & H5); [| reflexivity].
  apply string_at_ok in H6 as (r6 & Hr6 & H6); [| reflexivity].
  rewrite Hr in *. injection Hr2 as <-. injection Hr3 as <-. injection Hr4 as <-.
  injection Hr5 as <-. injection Hr6 as <-.
  intros Hf. exists r. split; [reflexivity |].
  destruct (FirstChildElement r "BlockMap") as [bm |].
  - destruct (FirstChildElement bm "Range") as [re |].
    + destruct (parse_ranges (this re) (siblings re)) as [rs |];
        [| discriminate Hf].
      cbn in Hf. injection Hf as <-. cbn. auto 10.
    + cbn in Hf. injection Hf as <-. cbn. auto 10.
  - cbn in Hf. injection Hf as <-. cbn. auto 10.
Qed.

Lemma first_named_app name (before : list XMLElement) r after :
  Forall (fun x => Name x <> name) before -> Name r = name ->
  first_named name (before ++ r :: after) = Some {| this := r; siblings := after |}.
Proof.
  intros Hbefore Hr. induction Hbefore as [| x l Hx _ IH]; cbn [app first_named].
  - rewrite Hr, String.eqb_refl. reflexivity.
  - destruct (String.eqb_spec (Name x) name); [contradiction | exact IH].
Qed.

Lemma Range_parse_ok e r : Range_parse (Some e) = Ok r ->
  Range_parse (alone (this e)) = Ok r
  /\ Attribute e "chksum" = Some (checksum r).
Proof.
  destruct e as [x sibs]. unfold alone, Range_parse, Attribute, GetText. cbn [this].
  intros H. split; [exact H |].
  destruct x as [n t a k]. destruct t as [text |]; [| discriminate H].
  cbn [std_string rbind] in H.
  destruct (if negb (cxx.contains "-" text) then _ else _) as [sl |];
    [| discriminate H].
  cbn [rbind] in H. destruct (lookup_attr "chksum" a) as [chk |]; [| discriminate H].
  cbn in H. injection H as <-. reflexivity.
Qed.

(** The loop over the siblings gives one range for each of them. *)
Lemma parse_ranges_ok (rest : list XMLElement) : forall cur rs,
  parse_ranges cur rest = Ok rs ->
  Forall2 (fun x rg => Range_parse (alone x) = Ok rg
                       /\ Attribute {| this := x; siblings := [] |} "chksum"
                          = Some (checksum rg))
    (cur :: rest) rs.
Proof.
  induction rest as [| next rest IH]; intros cur rs; cbn [parse_ranges].
  - destruct (Range_parse _) as [r |] eqn:Hr; [| discriminate].
    cbn. intros [= <-]. apply Range_parse_ok in Hr as [Hr Hc].
    constructor; [split; [exact Hr | exact Hc] | constructor].
  - destruct (Range_parse _) as [r |] eqn:Hr; [| discriminate]. cbn [rbind].
    destruct (parse_ranges next rest) as [rs' |] eqn:Hrs; [| discriminate].
    cbn. intros [= <-]. apply Range_parse_ok in Hr as [Hr Hc].
    constructor; [split; [exact Hr | exact Hc] | eapply IH, Hrs].
Qed.

End Descriptor.

(** X14. When the bytes are not empty and tinyxml2 finds no root element in
    them (they are not XML), [from_xml_data] does not throw: it calls
    [FirstChildElement] through the null root, which is undefined. *)
Theorem from_xml_data_null_root (tn : string) (RootElement : list ascii -> ElemPtr)
    (bytes : list ascii)
    (Hbytes : bytes <> [])
    (Hroot : RootElement bytes = None) :
  from_xml_data tn RootElement bytes
  = Err (Undefined "null element dereferenced").
Proof.
  unfold from_xml_data. destruct bytes as [| b bytes]; [congruence |].
  rewrite Hroot. reflexivity.
Qed.

Lemma from_xml_data_null_root_witness :
  from_xml_data "m" (fun _ => None) ["x"%char]
  = Err (Undefined "null element dereferenced").
Proof.
  refine (from_xml_data_null_root "m" (fun _ => None) ["x"%char] _ _).
  - discriminate.
  - reflexivity.
Defined.

(** X15. A descriptor that [from_xml_data] returns has its six scalar fields
    from the first child of the root with the field's name: the four sizes
    are what the extraction reads from the texts, with the stream left
    good, and the two strings are the texts. *)
Theorem from_xml_data_reads_first_children (tn : string)
    (RootElement : list ascii -> ElemPtr)
    (bytes : list ascii) (f : BmapFile)
    (Hf : from_xml_data tn RootElement bytes = Ok f) :
  exists root, RootElement bytes = Some root
    /\ size_child root "ImageSize" (imageSize f)
    /\ size_child root "BlockSize" (blockSize f)
    /\ size_child root "BlocksCount" (blocksCount f)
    /\ size_child root "MappedBlocksCount" (mappedBlocksCount f)
    /\ text_child root "ChecksumType" (checksumType f)
    /\ text_child root "BmapFileChecksum" (bmapChecksum f).
Proof.
  apply from_xml_data_ok in Hf as (root & Hroot & H). exists root. tauto.
Qed.

Lemma from_xml_data_reads_first_children_witness :
  exists f,
    from_xml_data "m" (fun _ => sample_root) ["<"%char] = Ok f
    /\ exists root, sample_root = Some root
         /\ size_child root "ImageSize" (imageSize f)
         /\ size_child root "BlockSize" (blockSize f)
         /\ size_child root "BlocksCount" (blocksCount f)
         /\ size_child root "MappedBlocksCount" (mappedBlocksCount f)
         /\ text_child root "ChecksumType" (checksumType f)
         /\ text_child root "BmapFileChecksum" (bmapChecksum f).
Proof.
  eexists. split; [reflexivity |].
  refine (from_xml_data_reads_first_children "m" (fun _ => sample_root)
            ["<"%char] _ _).
  reflexivity.
Defined.


(** X16. The four sizes of a descriptor that [from_xml_data] returns are
    [size_t] values, whatever the texts of the document are. *)
Theorem from_xml_data_sizes_in_range (tn : string)
    (RootElement : list ascii -> ElemPtr)
    (bytes : list ascii) (f : BmapFile)
    (Hf : from_xml_data tn RootElement bytes = Ok f) :
  0 <= imageSize f <= SIZE_MAX /\ 0 <= blockSize f <= SIZE_MAX
  /\ 0 <= blocksCount f <= SIZE_MAX /\ 0 <= mappedBlocksCount f <= SIZE_MAX.
Proof.
  apply from_xml_data_ok in Hf as (root & Hroot & H). tauto.
Qed.

Lemma from_xml_data_sizes_in_range_witness :
  exists f,
    from_xml_data "m" (fun _ => sample_root) ["<"%char] = Ok f
    /\ 0 <= imageSize f <= SIZE_MAX /\ 0 <= blockSize f <= SIZE_MAX
    /\ 0 <= blocksCount f <= SIZE_MAX /\ 0 <= mappedBlocksCount f <= SIZE_MAX.
Proof.
  eexists. split; [reflexivity |].
  refine (from_xml_data_sizes_in_range "m" (fun _ => sample_root)
            ["<"%char] _ _).
  reflexivity.
Defined.


(** X17. The block map of a returned descriptor has one range for the first
    child of [BlockMap] named [Range] and one for every element after it,
    whatever the name of that element; the children before the first
    [Range] give none. Each range is what [Range::parse] makes of its
    element, and its checksum is the [chksum] attribute of the element. *)
Theorem from_xml_data_takes_every_sibling (tn : string)
    (RootElement : list ascii -> ElemPtr)
    (bytes : list ascii) (f : BmapFile)
    (root blockMapElem : ElemRef) (before after : list XMLElement) (r : XMLElement)
    (Hf : from_xml_data tn RootElement bytes = Ok f)
    (Hroot : RootElement bytes = Some root)
    (Hmap : FirstChildElement root "BlockMap" = Some blockMapElem)
    (Hkids : children (this blockMapElem) = before ++ r :: after)
    (Hbefore : Forall (fun x => Name x <> "Range") before)
    (Hr : Name r = "Range") :
  Forall2 (fun x rg => Range_parse (alone x) = Ok rg
                       /\ Attribute {| this := x; siblings := [] |} "chksum"
                          = Some (checksum rg))
    (r :: after) (blockMap f).
Proof.
  apply from_xml_data_ok in Hf as (root' & Hroot' & H).
  rewrite Hroot in Hroot'. injection Hroot' as <-.
  destruct H as (_ & _ & _ & _ & _ & _ & H). rewrite Hmap in H.
  unfold FirstChildElement in H at 1. rewrite Hkids in H.
  rewrite (first_named_app _ _ _ _ Hbefore Hr) in H. cbn [this siblings] in H.
  now apply parse_ranges_ok in H.
Qed.

Lemma from_xml_data_takes_every_sibling_witness :
  exists f,
    from_xml_data "m" (fun _ => sample_mixed_root) ["<"%char] = Ok f
    /\ Forall2 (fun x rg => Range_parse (alone x) = Ok rg
                            /\ Attribute {| this := x; siblings := [] |} "chksum"
                               = Some (checksum rg))
         [Element "Range" (Some "0") [("chksum", "c0")] [];
          Element "Extent" (Some "2-3") [("chksum", "c1")] []]
         (blockMap f).
Proof.
  eexists. split; [reflexivity |].
  eapply (from_xml_data_takes_every_sibling "m" (fun _ => sample_mixed_root)
            ["<"%char])
    with (before := [Element "Note" (Some "x") [] []]).
  - reflexivity.
  - reflexivity.
  - reflexivity.
  - reflexivity.
  - repeat constructor. discriminate.
  - reflexivity.
Defined.

(** ** The copy as a whole *)

(** X18. [Progress::percent] is undefined whenever [mappedBlocks] is 0, for each
    number of blocks written: [100.0f / 0.0f] is an infinity, its product
    is an infinity or not a number, and neither converts to [uint8_t]. *)
Theorem percent_undefined_without_mapped_blocks :
  forall blocksWritten : Z,
    percent {| mappedBlocks := 0; blocksWritten := blocksWritten |}
    = Err (Undefined "float to uint8_t conversion out of range").
Proof.
  intros w. unfold percent. cbn [mappedBlocks bmap.blocksWritten].
  change (cxx.fdiv (cxx.float_of_Z 100) (cxx.float_of_Z 0)) with (S754_infinity false).
  destruct (cxx.float_of_Z w) as [s | s | | s m e]; reflexivity.
Qed.

Section Loop.
Variable bmapFile : BmapFile.
Variable has_callback : bool.

Let chunk := one_chunk bmapFile has_callback.
Let seek := seek_both.

(** A range that ends has run its inner loop to the end and found the
    percentage of the debug line defined; its state is the one after
    [fsync]. *)
Lemma copy_range_finished fuel r st :
  status (copy_range bmapFile has_callback fuel r st) = Finished ->
  let st1 := if offset r >? blocksWritten (progress st)
             then seek (offset r - blocksWritten (progress st)) st else st in
  let o := transfer bmapFile has_callback fuel (blockCount r) st1 in
  status o = Finished
  /\ final (copy_range bmapFile has_callback fuel r st) = log fsync (final o)
  /\ exists t, percent (progress (final o)) = Ok t.
Proof.
  unfold copy_range, seek, seek_both. cbv zeta.
  set (st1 := if offset r >? blocksWritten (progress st) then _ else st).
  set (o := transfer bmapFile has_callback fuel (blockCount r) st1).
  destruct (status o) eqn:Ht; [| rewrite Ht; discriminate | rewrite Ht; discriminate].
  cbn [log progress].
  destruct (percent (progress (final o))) as [t |] eqn:Hp; cbn [status final];
    [| discriminate].
  intros _. eauto.
Qed.

(** An invariant of one turn of the inner loop, of a pair of seeks and of an
    entry in the log is an invariant of the whole loop. *)
Lemma transfer_invariant (P : State -> Prop) :
  (forall c st, P st -> P (chunk c st)) ->
  forall fuel n st, P st -> P (final (transfer bmapFile has_callback fuel n st)).
Proof.
  intros Hchunk. induction fuel as [| fuel IH]; intros n st Hst; cbn [transfer];
    destruct (n >? 0); try exact Hst.
  apply IH. apply (Hchunk _ _ Hst).
Qed.

Lemma copy_ranges_invariant (P : State -> Prop) :
  (forall c st, P st -> P (chunk c st)) ->
  (forall o st, P st -> P (seek o st)) ->
  (forall st, P st -> P (log fsync st)) ->
  forall fuel ranges st, P st ->
    P (final (copy_ranges bmapFile has_callback fuel ranges st)).
Proof.
  intros Hchunk Hseek Hlog fuel.
  pose proof (transfer_invariant P Hchunk) as Ht.
  assert (Hr : forall r st, P st ->
            P (final (copy_range bmapFile has_callback fuel r st))).
  { intros r st Hst. unfold copy_range.
    set (st1 := if offset r >? blocksWritten (progress st) then _ else st).
    assert (H1 : P st1).
    { unfold st1. destruct (offset r >? _); [apply (Hseek _ _ Hst) | exact Hst]. }
    specialize (Ht fuel (blockCount r) st1 H1).
    destruct (status (transfer bmapFile has_callback fuel (blockCount r) st1));
      cbn [final]; auto.
    destruct (percent _); cbn [final]; auto. }
  induction ranges as [| r ranges IH]; intros st Hst; cbn [copy_ranges]; [exact Hst |].
  specialize (Hr r st Hst).
  destruct (status (copy_range bmapFile has_callback fuel r st)); auto.
Qed.

Lemma copy_invariant (P : State -> Prop) :
  (forall c st, P st -> P (chunk c st)) ->
  (forall o st, P st -> P (seek o st)) ->
  (forall st, P st -> P (log fsync st)) ->
  forall fuel st, P st -> P (final (copy bmapFile has_callback fuel st)).
Proof.
  intros Hchunk Hseek Hlog fuel st Hst. unfold copy.
  destruct (blockSize bmapFile =? 0); [exact Hst |].
  now apply copy_ranges_invariant.
Qed.




Lemma seek_all_zero o st : all_zero st -> all_zero (seek o st).
Proof.
  intros (Hfail & Hbuff & Hdata). unfold seek, seek_both, all_zero, do_seekg, do_fseek, buff_at.
  cbn. rewrite Hfail. auto.
Qed.

(** What the loop does to the two counters and to the log does not depend
    on the streams. *)
Lemma copy_same_run fuel st1 st2 :
  calls st1 = calls st2 -> progress st1 = progress st2 ->
  let o1 := copy bmapFile has_callback fuel st1 in
  let o2 := copy bmapFile has_callback fuel st2 in
  status o1 = status o2 /\ calls (final o1) = calls (final o2)
  /\ progress (final o1) = progress (final o2).
Proof.
  assert (Hchunk : forall c s1 s2,
    calls s1 = calls s2 -> progress s1 = progress s2 ->
    calls (chunk c s1) = calls (chunk c s2)
    /\ progress (chunk c s1) = progress (chunk c s2)).
  { intros c s1 s2 Hc Hp. unfold chunk, one_chunk. cbv zeta.
    rewrite !advance_calls, !advance_progress, !do_fwrite_calls, !do_fwrite_progress,
      !do_read_calls, !do_read_progress, Hc, Hp. auto. }
  assert (Ht : forall fuel' n s1 s2,
    calls s1 = calls s2 -> progress s1 = progress s2 ->
    let o1 := transfer bmapFile has_callback fuel' n s1 in
    let o2 := transfer bmapFile has_callback fuel' n s2 in
    status o1 = status o2 /\ calls (final o1) = calls (final o2)
    /\ progress (final o1) = progress (final o2)).
  { induction fuel' as [| fuel' IH]; intros n s1 s2 Hc Hp; cbn [transfer];
      destruct (n >? 0); cbn; auto.
    destruct (Hchunk (if bufferMaxBlocks bmapFile <? n then bufferMaxBlocks bmapFile else n)
                s1 s2 Hc Hp) as [Hc' Hp'].
    apply IH; assumption. }
  assert (Hr : forall r s1 s2,
    calls s1 = calls s2 -> progress s1 = progress s2 ->
    let o1 := copy_range bmapFile has_callback fuel r s1 in
    let o2 := copy_range bmapFile has_callback fuel r s2 in
    status o1 = status o2 /\ calls (final o1) = calls (final o2)
    /\ progress (final o1) = progress (final o2)).
  { intros r s1 s2 Hc Hp. unfold copy_range. rewrite Hp.
    set (t1 := if offset r >? blocksWritten (progress s2) then _ else s1).
    set (t2 := if offset r >? blocksWritten (progress s2) then _ else s2).
    assert (H12 : calls t1 = calls t2 /\ progress t1 = progress t2).
    { unfold t1, t2. destruct (offset r >? _); [| auto].
      cbn. rewrite Hc, Hp. auto. }
    destruct H12 as [Hc' Hp'].
    destruct (Ht fuel (blockCount r) t1 t2 Hc' Hp') as (Hs & Hcf & Hpf).
    cbv zeta. rewrite Hs.
    destruct (status (transfer bmapFile has_callback fuel (blockCount r) t2)) eqn:E2;
      cbn [log progress]; rewrite ?Hpf;
      try destruct (percent (progress (final (transfer bmapFile has_callback fuel
                                                (blockCount r) t2))));
      cbn [status final log calls progress]; rewrite ?Hcf, ?Hpf, ?Hs, ?E2; auto. }
  intros Hc Hp. unfold copy. cbv zeta.
  destruct (blockSize bmapFile =? 0); [cbn; auto |].
  revert st1 st2 Hc Hp.
  induction (blockMap bmapFile) as [| r ranges IH]; intros s1 s2 Hc Hp;
    cbn [copy_ranges]; [cbn; auto |].
  destruct (Hr r s1 s2 Hc Hp) as (Hs & Hcf & Hpf). rewrite Hs.
  destruct (status (copy_range bmapFile has_callback fuel r s2)) eqn:E2;
    rewrite ?Hs, ?E2; auto.
Qed.

End Loop.

Section Whole.
Variable bmapFile : BmapFile.
Variable has_callback : bool.
Variable fuel : nat.

(** The blocks counted when an inner loop ends. *)
Lemma transfer_counts : forall (fuel' : nat) (n : Z) (st : State),
  0 <= n -> 0 <= blocksWritten (progress st) < 2 ^ 64 ->
  let o := transfer bmapFile has_callback fuel' n st in
  status o = Finished ->
  blocksWritten (progress (final o)) = wrap64 (blocksWritten (progress st) + n).
Proof.
  induction fuel' as [| fuel' IH]; intros n st Hn Hw; cbn [transfer];
    destruct (Z.gtb_spec n 0) as [Hpos | Hzero]; cbn [status final]; try discriminate.
  - intros _. assert (n = 0) as -> by lia. unfold wrap64.
    rewrite Z.add_0_r, Z.mod_small; lia.
  - intros Hs. rewrite IH; [| apply Z.mod_pos_bound; lia | | exact Hs].
    + rewrite advance_progress, do_fwrite_progress, do_read_progress.
      cbn [blocksWritten]. unfold wrap64. rewrite <- Zplus_mod. f_equal. lia.
    + rewrite advance_progress. cbn [blocksWritten]. apply Z.mod_pos_bound. lia.
  - intros _. assert (n = 0) as -> by lia. unfold wrap64.
    rewrite Z.add_0_r, Z.mod_small; lia.
Qed.

Lemma copy_ranges_counts (ranges : list Range) : forall st : State,
  Forall (fun r => 0 <= blockCount r) ranges ->
  0 <= blocksWritten (progress st) < 2 ^ 64 ->
  let o := copy_ranges bmapFile has_callback fuel ranges st in
  status o = Finished ->
  blocksWritten (progress (final o))
  = wrap64 (blocksWritten (progress st) + sumZ (map blockCount ranges)).
Proof.
  induction ranges as [| r ranges IH]; intros st Hall Hw; cbn [copy_ranges].
  - cbn. intros _. unfold wrap64. rewrite Z.add_0_r, Z.mod_small; lia.
  - apply Forall_cons in Hall as [Hr Hall].
    destruct (status (copy_range bmapFile has_callback fuel r st)) eqn:Hs;
      cbv zeta; rewrite ?Hs; try discriminate.
    assert (Hstep : blocksWritten (progress (final (copy_range bmapFile has_callback fuel r st)))
                    = wrap64 (blocksWritten (progress st) + blockCount r)).
    { destruct (copy_range_finished bmapFile has_callback fuel r st Hs)
        as (Ht & -> & _).
      set (st1 := if offset r >? blocksWritten (progress st) then _ else st) in *.
      assert (H1 : progress st1 = progress st).
      { unfold st1. destruct (offset r >? _); reflexivity. }
      cbn [log progress]. rewrite <- H1.
      apply transfer_counts; [exact Hr | now rewrite H1 | exact Ht]. }
    intros Hfin. rewrite (IH _ Hall); [| | exact Hfin].
    + rewrite Hstep.
      change (sumZ (map blockCount (r :: ranges)))
        with (blockCount r + sumZ (map blockCount ranges)).
      unfold wrap64. rewrite Zplus_mod_idemp_l. f_equal. lia.
    + rewrite Hstep. apply Z.mod_pos_bound. lia.
Qed.

Hypothesis Hbs : 0 < blockSize bmapFile <= MAX_BUF_SIZE.

Let fit (r : Range) : Prop :=
  0 <= blockCount r
  /\ (length (chunk_sizes (bufferMaxBlocks bmapFile) (blockCount r)) <= fuel)%nat.

Lemma sumZ_counts_nonneg (ranges : list Range) :
  Forall fit ranges -> 0 <= sumZ (map blockCount ranges).
Proof.
  induction 1 as [| x l [Hx _] _ IHl]; [cbn; lia |].
  change (sumZ (map blockCount (x :: l)))
    with (blockCount x + sumZ (map blockCount l)). lia.
Qed.

(** One range whose blocks stay within [mappedBlocks]: the inner loop ends,
    the percentage of the debug line is defined, and the range ends after
    its [fsync]. *)
Lemma copy_range_step (r : Range) (st : State) :
  fit r -> 0 <= blocksWritten (progress st) ->
  0 < mappedBlocks (progress st) <= SIZE_MAX ->
  blocksWritten (progress st) + blockCount r <= mappedBlocks (progress st) ->
  let st1 := if offset r >? blocksWritten (progress st)
             then seek_both (offset r - blocksWritten (progress st)) st else st in
  let o := transfer bmapFile has_callback fuel (blockCount r) st1 in
  copy_range bmapFile has_callback fuel r st
  = {| final := log fsync (final o); status := Finished |}
  /\ calls (final o)
     = calls st1 ++ chunk_calls has_callback (blockSize bmapFile)
                      (mappedBlocks (progress st)) (blocksWritten (progress st))
                      (chunk_sizes (bufferMaxBlocks bmapFile) (blockCount r))
  /\ progress (final o)
     = {| mappedBlocks := mappedBlocks (progress st);
          blocksWritten := blocksWritten (progress st) + blockCount r |}
  /\ devPos (final o) = devPos st1 + blockCount r * blockSize bmapFile.
Proof.
  intros [Hn Hfuel] Hw Hm Hsum. cbv zeta.
  pose proof (copy_range_done bmapFile has_callback fuel r st) as Hdone.
  cbv zeta in Hdone. unfold seek_both.
  set (st1 := if offset r >? blocksWritten (progress st) then _ else st) in *.
  assert (Hp1 : progress st1 = progress st).
  { unfold st1. destruct (offset r >? _); reflexivity. }
  destruct (transfer_chunks bmapFile has_callback Hbs fuel (blockCount r) st1)
    as (Hs & Hc & Hp & Hd).
  - unfold SIZE_MAX in *. lia.
  - rewrite Hp1. unfold SIZE_MAX in *. lia.
  - exact Hfuel.
  - cbv zeta in Hs, Hc, Hp, Hd. rewrite Hp1 in Hc, Hp.
    assert (Hwrap : wrap64 (blocksWritten (progress st) + blockCount r)
                    = blocksWritten (progress st) + blockCount r).
    { unfold wrap64. apply Z.mod_small. unfold SIZE_MAX in *. lia. }
    rewrite Hwrap in Hp.
    destruct (percent_defined
                (progress (final (transfer bmapFile has_callback fuel (blockCount r) st1))))
      as (t & Ht & _); [rewrite Hp; exact Hm | rewrite Hp; cbn; lia |].
    rewrite (Hdone t Hs Ht). auto.
Qed.

(** The calls of the loop over the ranges, one range after the other. *)
Lemma copy_ranges_calls (ranges : list Range) : forall st : State,
  Forall fit ranges ->
  mappedBlocks (progress st) = mappedBlocksCount bmapFile ->
  0 < mappedBlocksCount bmapFile <= SIZE_MAX ->
  0 <= blocksWritten (progress st) ->
  blocksWritten (progress st) + sumZ (map blockCount ranges)
    <= mappedBlocksCount bmapFile ->
  let o := copy_ranges bmapFile has_callback fuel ranges st in
  status o = Finished
  /\ calls (final o)
     = calls st ++ range_calls has_callback bmapFile (blocksWritten (progress st)) ranges.
Proof.
  induction ranges as [| r ranges IH]; intros st Hall Hm Hmb Hw Hsum; cbn [copy_ranges].
  - cbn. now rewrite app_nil_r.
  - apply Forall_cons in Hall as [Hr Hall].
    change (sumZ (map blockCount (r :: ranges)))
      with (blockCount r + sumZ (map blockCount ranges)) in Hsum.
    pose proof (sumZ_counts_nonneg ranges Hall) as Hrest.
    destruct (copy_range_step r st Hr Hw) as (Hcr & Hc & Hp & _);
      [rewrite Hm; exact Hmb | rewrite Hm; lia |].
    cbv zeta in Hcr, Hc, Hp. rewrite Hcr. cbn [status final].
    set (seeks := if offset r >? blocksWritten (progress st)
                  then [fseek (offset r - blocksWritten (progress st));
                        seekg (offset r - blocksWritten (progress st))]
                  else []).
    set (st1 := if offset r >? blocksWritten (progress st) then _ else st) in *.
    assert (Hc1 : calls st1 = calls st ++ seeks).
    { unfold st1, seeks. destruct (offset r >? _).
      - cbn. now rewrite <- app_assoc.
      - now rewrite app_nil_r. }
    destruct Hr as [Hn _].
    destruct (IH (log fsync (final (transfer bmapFile has_callback fuel (blockCount r) st1)))
                Hall) as [Hs' Hc'].
    + cbn [log progress]. rewrite Hp. exact Hm.
    + exact Hmb.
    + cbn [log progress]. rewrite Hp. cbn [blocksWritten]. lia.
    + cbn [log progress]. rewrite Hp. cbn [blocksWritten]. lia.
    + split; [exact Hs' |]. rewrite Hc'. cbn [log calls progress].
      rewrite Hc, Hc1, Hp, Hm. cbn [blocksWritten range_calls].
      fold seeks. rewrite <- !app_assoc. reflexivity.
Qed.






End Whole.

(** X19. Nothing [copy] does after its checks depends on the image: with the
    same descriptor and target, an image that cannot be opened, a truncated
    one and a complete one give the same calls with the same arguments, the
    same progress reports and the same end. A read that fails or comes
    short is never noticed. *)
Theorem copy_paths_blind_to_image :
  forall (tn : string) (RootElement : list ascii -> ElemPtr)
         (file_exists : string -> bool) (file_text : string -> list ascii)
         (file_bytes1 file_bytes2 : string -> option (list Z))
         (fopen_ok : string -> bool)
         (parent_path : string -> string) (path_append : string -> string -> string)
         (wicPath targetDisk : string) (has_callback : bool) (fuel : nat),
    match copy_paths tn RootElement file_exists file_text file_bytes1 fopen_ok
            parent_path path_append wicPath targetDisk has_callback fuel,
          copy_paths tn RootElement file_exists file_text file_bytes2 fopen_ok
            parent_path path_append wicPath targetDisk has_callback fuel
    with
    | Ok o1, Ok o2 =>
        status o1 = status o2 /\ calls (final o1) = calls (final o2)
        /\ progress (final o1) = progress (final o2)
    | Err f1, Err f2 => f1 = f2
    | _, _ => False
    end.
Proof.
  intros. unfold copy_paths.
  destruct (check_paths file_exists wicPath targetDisk); [| reflexivity]. cbn [rbind].
  destruct (from_xml _ _ _ _ _) as [bmapFile |]; [| reflexivity]. cbn [rbind].
  destruct (negb (fopen_ok targetDisk)); [reflexivity |].
  apply copy_same_run; reflexivity.
Qed.





(** X22. When the loop over the ranges ends, [blocksWritten] is the sum of the
    block counts of the ranges, modulo 2^64, for every block size and
    image; [mappedBlocks] is still the descriptor's [MappedBlocksCount],
    with which the sum is never compared. *)
Theorem copy_counts_every_block (bmapFile : BmapFile) (has_callback : bool)
    (fuel : nat) (wic : list Z)
    (Hcounts : Forall (fun r => 0 <= blockCount r) (blockMap bmapFile))
    (Hdone : status (copy bmapFile has_callback fuel (opened bmapFile wic)) = Finished) :
  progress (final (copy bmapFile has_callback fuel (opened bmapFile wic)))
  = {| mappedBlocks := mappedBlocksCount bmapFile;
       blocksWritten := wrap64 (sumZ (map blockCount (blockMap bmapFile))) |}.
Proof.
  assert (Hm : mappedBlocks (progress (final (copy bmapFile has_callback fuel
                                                (opened bmapFile wic))))
               = mappedBlocksCount bmapFile).
  { apply (copy_invariant bmapFile has_callback
             (fun st => mappedBlocks (progress st) = mappedBlocksCount bmapFile)).
    - intros c st H. unfold one_chunk. cbv zeta.
      rewrite advance_progress, do_fwrite_progress, do_read_progress. exact H.
    - intros s st H. exact H.
    - intros st H. exact H.
    - reflexivity. }
  assert (Hw : blocksWritten (progress (final (copy bmapFile has_callback fuel
                                                 (opened bmapFile wic))))
               = wrap64 (sumZ (map blockCount (blockMap bmapFile)))).
  { unfold copy in *. destruct (blockSize bmapFile =? 0); [discriminate Hdone |].
    rewrite (copy_ranges_counts bmapFile has_callback fuel _ _ Hcounts);
      [reflexivity | cbn; lia | exact Hdone]. }
  destruct (progress _) as [m w]. cbn in Hm, Hw. now subst.
Qed.

Lemma copy_counts_every_block_witness :
  progress (final (copy sample_descriptor false 1 (opened sample_descriptor [])))
  = {| mappedBlocks := 3; blocksWritten := 3 |}.
Proof.
  refine (copy_counts_every_block sample_descriptor false 1 [] _ _).
  - repeat constructor; cbn; lia.
  - reflexivity.
Defined.

(** X23. The whole sequence of calls that a copy makes on its two streams
    and on the callback, for a block size of at most 8 MiB and ranges that
    hold at most [MappedBlocksCount] blocks in all (so that the percentage
    of the debug line is defined after every range): the copy ends, and for
    each range in the order of the map it makes a pair of seeks when the
    range starts after the blocks written so far, then the reads, writes
    and progress reports of its chunks, then one [fsync]; no other call is
    made on them. *)
Theorem copy_call_sequence (bmapFile : BmapFile) (has_callback : bool)
    (fuel : nat) (wic : list Z)
    (Hbs : 0 < blockSize bmapFile <= MAX_BUF_SIZE)
    (Hm : 0 < mappedBlocksCount bmapFile <= SIZE_MAX)
    (Hfit : Forall (fun r => 0 <= blockCount r
                     /\ (length (chunk_sizes (bufferMaxBlocks bmapFile) (blockCount r))
                         <= fuel)%nat) (blockMap bmapFile))
    (Hsum : sumZ (map blockCount (blockMap bmapFile)) <= mappedBlocksCount bmapFile) :
  status (copy bmapFile has_callback fuel (opened bmapFile wic)) = Finished
  /\ calls (final (copy bmapFile has_callback fuel (opened bmapFile wic)))
     = range_calls has_callback bmapFile 0 (blockMap bmapFile).
Proof.
  unfold copy. destruct (Z.eqb_spec (blockSize bmapFile) 0) as [E | _]; [lia |].
  apply (copy_ranges_calls bmapFile has_callback fuel Hbs (blockMap bmapFile)
           (opened bmapFile wic) Hfit); [reflexivity | exact Hm | cbn; lia | cbn; lia].
Qed.

Lemma copy_call_sequence_witness :
  status (copy sample_descriptor true 1 (opened sample_descriptor [])) = Finished
  /\ calls (final (copy sample_descriptor true 1 (opened sample_descriptor [])))
     = [read 2; fwrite 2; callback {| mappedBlocks := 3; blocksWritten := 1 |}; fsync;
        fseek 1; seekg 1;
        read 4; fwrite 4; callback {| mappedBlocks := 3; blocksWritten := 3 |}; fsync].
Proof.
  refine (copy_call_sequence sample_descriptor true 1 [] _ _ _ _).
  - vm_compute. split; [reflexivity | discriminate].
  - vm_compute. split; [reflexivity | discriminate].
  - repeat constructor; try (cbn; lia); vm_compute; lia.
  - vm_compute. discriminate.
Defined.



(** ** What the parser throws *)

Section Exceptions.
Variable typeid_name : string.
Variable RootElement : list ascii -> ElemPtr.

Let no_child (name : string) : string :=
  ("Unable to evaluate XPath. No child found with name " ++ name)%string.
Let no_number : string := ("Failed to convert element to type " ++ typeid_name)%string.

Lemma size_at_throw root name what : cxx.split "/" name = [name] ->
  xml.valueFromSimpleXPath (xml.value_size_t typeid_name) root name = Err (Throw what) ->
  what = no_child name \/ what = no_number.
Proof.
  unfold xml.valueFromSimpleXPath. intros ->. cbn [xml.descend].
  destruct root as [r |]; [| discriminate].
  destruct (FirstChildElement r name) as [c |]; cbn [rbind].
  - unfold xml.value_size_t. destruct (GetText c) as [text |]; [| discriminate].
    cbn [std_string rbind].
    destruct (cxx.failbit (cxx.extract_size_t text)); [| discriminate].
    intros [= <-]. now right.
  - intros [= <-]. now left.
Qed.

Lemma string_at_throw root name what : cxx.split "/" name = [name] ->
  xml.valueFromSimpleXPath xml.value_string root name = Err (Throw what) ->
  what = no_child name.
Proof.
  unfold xml.valueFromSimpleXPath. intros ->. cbn [xml.descend].
  destruct root as [r |]; [| discriminate].
  destruct (FirstChildElement r name) as [c |]; cbn [rbind].
  - unfold xml.value_string. destruct (GetText c); discriminate.
  - now intros [= <-].
Qed.

(** [Range::parse] reaches no [throw] statement on an element that is
    there. *)
Lemma Range_parse_no_throw e what : Range_parse (Some e) <> Err (Throw what).
Proof.
  unfold Range_parse. destruct (GetText e) as [text |]; [| discriminate].
  cbn [std_string rbind].
  assert (Hto : forall s w, to_sizeT s <> Err (Throw w)).
  { intros s w. unfold to_sizeT. destruct (cxx.stored _); discriminate. }
  destruct (negb (cxx.contains "-" text)); cbn [rbind].
  - destruct (to_sizeT text) as [v | f] eqn:E; cbn [rbind].
    + destruct (Attribute e "chksum"); discriminate.
    + intros [= ->]. now apply Hto in E.
  - destruct (cxx.split "-" text) as [| a [| b l]]; cbn [rbind]; try discriminate.
    destruct (to_sizeT a) eqn:E1; cbn [rbind]; [| intros [= ->]; now apply Hto in E1].
    destruct (to_sizeT b) eqn:E2; cbn [rbind]; [| intros [= ->]; now apply Hto in E2].
    destruct (Attribute e "chksum"); discriminate.
Qed.

Lemma parse_ranges_no_throw (rest : list XMLElement) : forall cur what,
  parse_ranges cur rest <> Err (Throw what).
Proof.
  induction rest as [| next rest IH]; intros cur what; cbn [parse_ranges];
    destruct (Range_parse _) as [r |] eqn:Hr; cbn [rbind]; try discriminate.
  - intros [= ->]. now apply Range_parse_no_throw in Hr.
  - destruct (parse_ranges next rest) as [rs |] eqn:Hrs; cbn [rbind];
      [discriminate | intros [= ->]; now apply IH in Hrs].
  - intros [= ->]. now apply Range_parse_no_throw in Hr.
Qed.

Lemma from_xml_data_throw bytes what :
  from_xml_data typeid_name RootElement bytes = Err (Throw what) ->
  what = "bmap file is empty!" \/ what = no_number
  \/ exists name, In name scalar_names /\ what = no_child name.
Proof.
  unfold from_xml_data. destruct bytes as [| b bytes]; [intros [= <-]; now left |].
  set (root := RootElement (b :: bytes)).
  assert (Hname : forall name, In name scalar_names ->
            what = no_child name \/ what = no_number ->
            what = "bmap file is empty!" \/ what = no_number
            \/ exists name, In name scalar_names /\ what = no_child name).
  { intros name Hin [H | H]; eauto. }
  destruct (xml.valueFromSimpleXPath _ root "ImageSize") as [v1 |] eqn:H1; cbn [rbind];
    [| intros [= ->]; apply size_at_throw in H1; [| reflexivity];
       apply (Hname "ImageSize"); [cbn; tauto | exact H1]].
  destruct (xml.valueFromSimpleXPath _ root "BlockSize") as [v2 |] eqn:H2; cbn [rbind];
    [| intros [= ->]; apply size_at_throw in H2; [| reflexivity];
       apply (Hname "BlockSize"); [cbn; tauto | exact H2]].
  destruct (xml.valueFromSimpleXPath _ root "BlocksCount") as [v3 |] eqn:H3; cbn [rbind];
    [| intros [= ->]; apply size_at_throw in H3; [| reflexivity];
       apply (Hname "BlocksCount"); [cbn; tauto | exact H3]].
  destruct (xml.valueFromSimpleXPath _ root "MappedBlocksCount") as [v4 |] eqn:H4;
    cbn [rbind];
    [| intros [= ->]; apply size_at_throw in H4; [| reflexivity];
       apply (Hname "MappedBlocksCount"); [cbn; tauto | exact H4]].
  destruct (xml.valueFromSimpleXPath _ root "ChecksumType") as [s1 |] eqn:H5; cbn [rbind];
    [| intros [= ->]; apply string_at_throw in H5; [| reflexivity];
       apply (Hname "ChecksumType"); [cbn; tauto | now left]].
  destruct (xml.valueFromSimpleXPath _ root "BmapFileChecksum") as [s2 |] eqn:H6;
    cbn [rbind];
    [| intros [= ->]; apply string_at_throw in H6; [| reflexivity];
       apply (Hname "BmapFileChecksum"); [cbn; tauto | now left]].
  destruct root as [r |]; [| discriminate].
  destruct (FirstChildElement r "BlockMap") as [bm |]; [| discriminate].
  destruct (FirstChildElement bm "Range") as [re |]; [| discriminate].
  destruct (parse_ranges (this re) (siblings re)) as [rs |] eqn:Hrs;
    [discriminate |].
  cbn [rbind]. intros [= ->]. now apply parse_ranges_no_throw in Hrs.
Qed.

End Exceptions.

(** X25. Of the [throw] statements of the header, [from_xml_data] can end
    in three only: "bmap file is empty!", "Failed to convert element to
    type ..." and "Unable to evaluate XPath. No child found with name ..."
    for one of the six scalar names. The statements that throw "Element is
    null" and "Cannot initialize Range from NULL!" are never reached from
    it, and no [throw] statement is reached for anything in a [BlockMap]:
    what goes wrong there (a missing [chksum], a missing text, a blank
    operand) is undefined behaviour, which this says nothing about. *)
Theorem from_xml_data_exceptions (tn : string) (RootElement : list ascii -> ElemPtr)
    (bytes : list ascii) (what : string)
    (Hthrow : from_xml_data tn RootElement bytes = Err (Throw what)) :
  what = "bmap file is empty!"
  \/ what = ("Failed to convert element to type " ++ tn)%string
  \/ exists name,
       In name scalar_names
       /\ what = ("Unable to evaluate XPath. No child found with name " ++ name)%string.
Proof. exact (from_xml_data_throw tn RootElement bytes what Hthrow). Qed.

Lemma from_xml_data_exceptions_witness :
  from_xml_data "m" (fun _ => document "8" "two" "4" "3" []) ["<"%char]
  = Err (Throw "Failed to convert element to type m")
  /\ ("Failed to convert element to type m" = "bmap file is empty!"
      \/ "Failed to convert element to type m"
         = ("Failed to convert element to type " ++ "m")%string
      \/ exists name,
           In name scalar_names
           /\ "Failed to convert element to type m"
              = ("Unable to evaluate XPath. No child found with name " ++ name)%string).
Proof.
  split; [reflexivity |].
  refine (from_xml_data_exceptions "m" (fun _ => document "8" "two" "4" "3" [])
            ["<"%char] _ _).
  reflexivity.
Defined.

(** ** Where the copy ends *)


